(** * TrustStorage: the persistent trust ledger of the SafeFolks bot

    A shallow embedding of the class [TrustStorage] of
    [src/bot/safefolks_bot.py] (the same class is repeated verbatim in
    [src/bot/test_bot.py]), and the properties of the ledger it keeps.

    The store holds one Python value, [self.data], which is whatever
    [json.load] returned, and mutates it in place.  The embedding keeps
    that dynamic view: [self.data] is a [pyval], every subscript can raise,
    and the typed records [Group], [TrustEdge] and [Ledger] are only the
    image of the dict literals the methods build.

    The handlers of the bot that call into the store ([status_command],
    [scan_command], [track_message], [chat_member_updated]) follow, as
    functions of what they read of an update and of what the chat platform
    answers. *)

From Stdlib Require Import ZArith String Ascii.
From Stdlib Require Import Floats.SpecFloat.
From stdpp Require Import gmap strings list fin_maps pretty.

Set Warnings "-register-all,-clear-no-such-hyp".
Open Scope string_scope.
Open Scope list_scope.
Open Scope Z_scope.

(** ** Python values *)

(** The values [json.load] can produce: [None], booleans, integers,
    floats, strings, lists, and dicts whose keys are strings.  The methods
    only ever add string keys, so the universe is closed under them.
    Dict equality in Python ignores insertion order, as [gmap] equality
    does. *)
Inductive pyval : Type :=
| PNone
| PBool (b : bool)
| PInt (z : Z)
| PFloat (f : spec_float)
| PStr (s : string)
| PList (l : list pyval)
| PDict (d : gmap string pyval).

(** The exceptions that the modelled statements can raise;
    [TelegramError] is what a call of the chat platform raises. *)
Inductive exn : Type :=
| KeyError (k : string)
| TypeError
| AttributeError
| OSError
| JSONDecodeError
| TelegramError.

Inductive result (A : Type) : Type :=
| Ok (a : A)
| Raise (e : exn).
Arguments Ok {A} a.
Arguments Raise {A} e.

Definition is_ok {A} (r : result A) : bool :=
  match r with Ok _ => true | Raise _ => false end.

(** [str(n)] for an integer: decimal digits, with a leading minus sign for
    a negative number. *)
Definition str (n : Z) : string := pretty n.

(** [v[k]] for a string key [k]. *)
Definition getitem (v : pyval) (k : string) : result pyval :=
  match v with
  | PDict d => match d !! k with Some x => Ok x | None => Raise (KeyError k) end
  | _ => Raise TypeError
  end.

(** [v[k] = x] for a string key [k]; the dict is updated in place. *)
Definition setitem (v : pyval) (k : string) (x : pyval) : result pyval :=
  match v with
  | PDict d => Ok (PDict (<[k:=x]> d))
  | _ => Raise TypeError
  end.

(** [v.append(x)]: only lists have the method. *)
Definition append (v : pyval) (x : pyval) : result pyval :=
  match v with
  | PList l => Ok (PList (l ++ [x]))
  | _ => Raise AttributeError
  end.

(** The items a [for] loop or a comprehension draws from [v].  A dict
    yields its keys and a string its characters; the loops below subscript
    each item with a string, which raises on the first such item whatever
    the order. *)
Definition iter (v : pyval) : result (list pyval) :=
  match v with
  | PList l => Ok l
  | PDict d => Ok (PStr <$> (map_to_list d).*1)
  | PStr s => Ok ((λ c, PStr (String c EmptyString)) <$> list_ascii_of_string s)
  | _ => Raise TypeError
  end.

(** A float equals an integer when its exact value is that integer. *)
Definition float_eq_int (f : spec_float) (n : Z) : bool :=
  match f with
  | S754_zero _ => bool_decide (n = 0)
  | S754_finite s m e =>
      let v := if s then Z.neg m else Z.pos m in
      if bool_decide (0 ≤ e) then bool_decide (n = v * 2 ^ e)
      else bool_decide (v = n * 2 ^ (- e))
  | _ => false
  end.

(** [v == n] for an integer [n]: numbers compare by value ([bool] is a
    subclass of [int]), everything else is unequal.  It never raises. *)
Definition eq_int (v : pyval) (n : Z) : bool :=
  match v with
  | PInt z => bool_decide (z = n)
  | PBool b => bool_decide ((if b then 1 else 0) = n)
  | PFloat f => float_eq_int f n
  | _ => false
  end.

(** ** The monad of the methods: state and exceptions *)

Definition M (S A : Type) : Type := S → result A * S.

Definition ret {S A} (a : A) : M S A := λ s, (Ok a, s).
Definition raise {S A} (e : exn) : M S A := λ s, (Raise e, s).
Definition bind {S A B} (m : M S A) (k : A → M S B) : M S B :=
  λ s, match m s with
       | (Ok a, s') => k a s'
       | (Raise e, s') => (Raise e, s')
       end.
(** [try: m  except Exception as e: h e] *)
Definition try_except {S A} (m : M S A) (h : exn → M S A) : M S A :=
  λ s, match m s with
       | (Ok a, s') => (Ok a, s')
       | (Raise e, s') => h e s'
       end.
(** A computation without effects, which may raise. *)
Definition pure {S A} (r : result A) : M S A := λ s, (r, s).

Notation "x <- m ;; k" := (bind m (λ x, k))
  (at level 100, m at next level, right associativity,
   format "'[v' x  <-  m  ;;  '/' k ']'").
Notation "m ;;; k" := (bind m (λ _, k))
  (at level 100, right associativity).

(** ** The file system *)

(** What a path holds, as far as [json.load] can tell: text that parses,
    with the value it parses to, or anything on which opening or parsing
    raises.  [json.dump] followed by [json.load] gives back an equal value
    for the values of [pyval]; that is a property of Python's [json]
    module and is built into [Json].  [NoAccess] is a path that cannot
    even be examined: [os.stat] fails with an error other than the four
    that [Path.exists] takes for "no such file", as for a file in a
    directory that may not be searched. *)
Inductive file : Type :=
| Json (v : pyval)
| Corrupt (raw : string)
| NoAccess.

(** [writes] counts the calls of [open(path, 'w')]. *)
Record world : Type := mkWorld {
  fs : gmap string file;
  writes : nat
}.

(** How a save goes, decided by the environment. *)
Inductive save_outcome : Type :=
| SaveOk
| OpenFails
| DumpFails (partial : string).

(** [path.exists()]: it answers, or passes on the error of [os.stat]. *)
Definition exists_ (path : string) : M world bool :=
  λ w, match fs w !! path with
       | Some NoAccess => (Raise OSError, w)
       | Some _ => (Ok true, w)
       | None => (Ok false, w)
       end.

(** [open(path, 'r')] *)
Definition open_r (path : string) : M world file :=
  λ w, match fs w !! path with
       | Some NoAccess => (Raise OSError, w)
       | Some f => (Ok f, w)
       | None => (Raise OSError, w)
       end.

(** [json.load(f)] *)
Definition json_load (f : file) : M world pyval :=
  match f with
  | Json v => ret v
  | Corrupt _ => raise JSONDecodeError
  | NoAccess => raise OSError
  end.

(** [open(path, 'w')]: truncates the file, or raises and leaves it. *)
Definition open_w (path : string) (io : save_outcome) : M world unit :=
  λ w, match io with
       | OpenFails => (Raise OSError, mkWorld (fs w) (S (writes w)))
       | _ => (Ok tt, mkWorld (<[path := Corrupt ""]> (fs w)) (S (writes w)))
       end.

(** [json.dump(v, f, indent=2)] into the file just opened. *)
Definition json_dump (path : string) (v : pyval) (io : save_outcome) : M world unit :=
  λ w, match io with
       | DumpFails partial =>
           (Raise OSError, mkWorld (<[path := Corrupt partial]> (fs w)) (writes w))
       | _ => (Ok tt, mkWorld (<[path := Json v]> (fs w)) (writes w))
       end.

(** ** The records the methods build *)

Record Group : Type := mkGroup {
  name : string;
  owner_id : Z;
  owner_name : string;
  added_at : string
}.

Record TrustEdge : Type := mkTrust {
  group_id : Z;
  truster_id : Z;
  truster_name : string;
  trustee_id : Z;
  trustee_name : string;
  created_at : string
}.

(** The dict literal of [add_group]. *)
Definition group_record (g : Group) : pyval :=
  PDict (<["name" := PStr (name g)]>
        (<["owner_id" := PInt (owner_id g)]>
        (<["owner_name" := PStr (owner_name g)]>
        (<["added_at" := PStr (added_at g)]> ∅)))).

(** The dict literal of [add_trust]. *)
Definition trust_record (t : TrustEdge) : pyval :=
  PDict (<["group_id" := PInt (group_id t)]>
        (<["truster_id" := PInt (truster_id t)]>
        (<["truster_name" := PStr (truster_name t)]>
        (<["trustee_id" := PInt (trustee_id t)]>
        (<["trustee_name" := PStr (trustee_name t)]>
        (<["created_at" := PStr (created_at t)]> ∅)))))).

(** [{"groups": G, "trusts": T}] *)
Definition ledger_dict (G : gmap string pyval) (T : list pyval) : pyval :=
  PDict (<["groups" := PDict G]> (<["trusts" := PList T]> ∅)).

(** [{"groups": {}, "trusts": []}] *)
Definition empty_ledger : pyval := ledger_dict ∅ [].

(** ** The class TrustStorage *)

Record TrustStorage : Type := mkStorage {
  data_file : string;
  data : pyval
}.

(** A store instance together with the world it runs in. *)
Record state : Type := mkState {
  self : TrustStorage;
  env : world
}.

(** Runs a file-system action from inside a method. *)
Definition in_world {A} (m : M world A) : M state A :=
  λ σ, let '(r, w) := m (env σ) in (r, mkState (self σ) w).

Definition get_data : M state pyval := λ σ, (Ok (data (self σ)), σ).
Definition get_data_file : M state string := λ σ, (Ok (data_file (self σ)), σ).
Definition set_data (d : pyval) : M state unit :=
  λ σ, (Ok tt, mkState (mkStorage (data_file (self σ)) d) (env σ)).

(** [TrustStorage._load_data] *)
Definition _load_data (path : string) : M world pyval :=
  e <- exists_ path ;;
  if e : bool then
    try_except (f <- open_r path ;; json_load f)
               (λ _, ret empty_ledger)
  else ret empty_ledger.

(** [TrustStorage.__init__] *)
Definition __init__ (path : string) : M world TrustStorage :=
  d <- _load_data path ;;
  ret (mkStorage path d).

(** [TrustStorage._save_data] *)
Definition _save_data (io : save_outcome) : M state unit :=
  try_except
    (path <- get_data_file ;;
     d <- get_data ;;
     in_world (open_w path io) ;;;
     in_world (json_dump path d io))
    (λ _, ret tt).

(** [TrustStorage.add_group]; [now] is [datetime.now().isoformat()]. *)
Definition add_group (now : string) (io : save_outcome)
    (group_id : Z) (group_name : string) (owner_id : Z) (owner_name : string)
  : M state unit :=
  let group_id_str := str group_id in
  d <- get_data ;;
  gs <- pure (getitem d "groups") ;;
  gs' <- pure (setitem gs group_id_str
                 (group_record (mkGroup group_name owner_id owner_name now))) ;;
  d' <- pure (setitem d "groups" gs') ;;
  set_data d' ;;;
  _save_data io.

(** The condition of the duplicate check; [and] evaluates its right
    operand only when the left one is true. *)
Definition same_key (trust : pyval) (group_id truster_id trustee_id : Z)
  : result bool :=
  match getitem trust "group_id" with
  | Raise e => Raise e
  | Ok g =>
      if eq_int g group_id then
        match getitem trust "truster_id" with
        | Raise e => Raise e
        | Ok a =>
            if eq_int a truster_id then
              match getitem trust "trustee_id" with
              | Raise e => Raise e
              | Ok b => Ok (eq_int b trustee_id)
              end
            else Ok false
        end
      else Ok false
  end.

(** The loop of the duplicate check: [true] when it returns early. *)
Fixpoint trust_exists (items : list pyval) (group_id truster_id trustee_id : Z)
  : result bool :=
  match items with
  | [] => Ok false
  | trust :: rest =>
      match same_key trust group_id truster_id trustee_id with
      | Raise e => Raise e
      | Ok true => Ok true
      | Ok false => trust_exists rest group_id truster_id trustee_id
      end
  end.

(** [TrustStorage.add_trust] *)
Definition add_trust (now : string) (io : save_outcome)
    (group_id truster_id : Z) (truster_name : string)
    (trustee_id : Z) (trustee_name : string)
  : M state unit :=
  let record :=
    trust_record (mkTrust group_id truster_id truster_name
                          trustee_id trustee_name now) in
  d <- get_data ;;
  ts <- pure (getitem d "trusts") ;;
  items <- pure (iter ts) ;;
  found <- pure (trust_exists items group_id truster_id trustee_id) ;;
  if found : bool then ret tt
  else
    ts' <- pure (append ts record) ;;
    d' <- pure (setitem d "trusts" ts') ;;
    set_data d' ;;;
    _save_data io.

(** [[t for t in items if t[key] == n]] *)
Fixpoint select (key : string) (n : Z) (items : list pyval) : result (list pyval) :=
  match items with
  | [] => Ok []
  | t :: rest =>
      match getitem t key with
      | Raise e => Raise e
      | Ok x =>
          match select key n rest with
          | Raise e => Raise e
          | Ok r => Ok (if eq_int x n then t :: r else r)
          end
      end
  end.

(** [TrustStorage.get_group_trusts] *)
Definition get_group_trusts (group_id : Z) : M state (list pyval) :=
  d <- get_data ;;
  ts <- pure (getitem d "trusts") ;;
  items <- pure (iter ts) ;;
  pure (select "group_id" group_id items).

(** [TrustStorage.get_user_trusts] *)
Definition get_user_trusts (user_id : Z) : M state (list pyval) :=
  d <- get_data ;;
  ts <- pure (getitem d "trusts") ;;
  items <- pure (iter ts) ;;
  pure (select "truster_id" user_id items).

(** ** Ledgers *)

(** A ledger of the documented shape: group records under string keys and
    a sequence of trust records. *)
Record Ledger : Type := mkLedger {
  groups : gmap string Group;
  trusts : list TrustEdge
}.

(** The value of [self.data] that holds the ledger [L]. *)
Definition ledger_data (L : Ledger) : pyval :=
  ledger_dict (group_record <$> groups L) (trust_record <$> trusts L).

(** A store at [path] whose [self.data] holds [L], in the world [w]. *)
Definition store (path : string) (L : Ledger) (w : world) : state :=
  mkState (mkStorage path (ledger_data L)) w.

(** The natural key of a trust edge. *)
Definition key (t : TrustEdge) : Z * Z * Z :=
  (group_id t, truster_id t, trustee_id t).

(** What a save does to the world. *)
Definition after_save (path : string) (d : pyval) (io : save_outcome) (w : world)
  : world :=
  match io with
  | SaveOk => mkWorld (<[path := Json d]> (fs w)) (S (writes w))
  | OpenFails => mkWorld (fs w) (S (writes w))
  | DumpFails partial => mkWorld (<[path := Corrupt partial]> (fs w)) (S (writes w))
  end.

(** The ledger after [add_group]. *)
Definition with_group (L : Ledger) (now : string) (g : Z) (n : string) (o : Z)
    (on : string) : Ledger :=
  mkLedger (<[str g := mkGroup n o on now]> (groups L)) (trusts L).

(** The ledger after [add_trust] has appended. *)
Definition with_trust (L : Ledger) (t : TrustEdge) : Ledger :=
  mkLedger (groups L) (trusts L ++ [t]).

(** ** Sequences of calls *)

Inductive call : Type :=
| AddGroup (now : string) (io : save_outcome)
    (group_id : Z) (group_name : string) (owner_id : Z) (owner_name : string)
| AddTrust (now : string) (io : save_outcome)
    (group_id truster_id : Z) (truster_name : string)
    (trustee_id : Z) (trustee_name : string).

Definition call_io (c : call) : save_outcome :=
  match c with
  | AddGroup _ io _ _ _ _ => io
  | AddTrust _ io _ _ _ _ _ => io
  end.

Definition perform (c : call) : M state unit :=
  match c with
  | AddGroup now io g n o on => add_group now io g n o on
  | AddTrust now io g a an b bn => add_trust now io g a an b bn
  end.

(** The state after a call; an exception is left to the caller and the
    store lives on. *)
Definition exec (σ : state) (c : call) : state := (perform c σ).2.

Definition run (cs : list call) (σ : state) : state := foldl exec σ cs.

(** The world before any store has touched it. *)
Definition no_files : world := mkWorld ∅ 0.

Definition fresh (path : string) : state := store path (mkLedger ∅ []) no_files.

Definition is_add_group (c : call) : Prop :=
  match c with AddGroup _ _ _ _ _ _ => True | AddTrust _ _ _ _ _ _ _ => False end.

(** The group id a call names. *)
Definition call_group (c : call) : Z :=
  match c with
  | AddGroup _ _ g _ _ _ => g
  | AddTrust _ _ g _ _ _ _ => g
  end.





(** ** The handlers of the bot *)

(** What the handlers read of the chat platform's objects: [chat.id],
    [chat.type], [chat.title]; [user.id], [user.full_name]; the [user] and
    [status] of a chat member.  An update carries its chat, its user and,
    for a membership update, the new chat member. *)
Record Chat : Type := mkChat {
  chat_id : Z;
  chat_type : string;
  chat_title : string
}.

Record User : Type := mkUser {
  user_id : Z;
  full_name : string
}.

Record ChatMember : Type := mkChatMember {
  member_user : User;
  member_status : string
}.

Record Update : Type := mkUpdate {
  effective_chat : Chat;
  effective_user : User;
  new_chat_member : ChatMember
}.

(** The replies, by which message is sent and the values put into its
    text.  The lines of a status report are the [truster_name] and
    [trustee_name] of each edge; without lines the report ends with the
    hint that nothing is recorded yet.  [ScanError] carries the exception
    of the store, or nothing when the platform call raised. *)
Inductive reply : Type :=
| StatusPrivate
| StatusNotRegistered
| StatusReport (title : string) (owner : pyval) (total : nat)
    (lines : list (pyval * pyval))
| ScanPrivate
| ScanNoOwner
| ScanRegistered (owner : string) (members : Z)
| ScanError (e : option exn).

(** [k in s] for two strings. *)
Fixpoint is_substring (k s : string) : bool :=
  String.prefix k s ||
  match s with
  | EmptyString => false
  | String _ s' => is_substring k s'
  end.

(** [k in v] for a string [k]: a key of a dict, an element of a list, a
    substring of a string. *)
Definition contains (v : pyval) (k : string) : result bool :=
  match v with
  | PDict d => Ok (bool_decide (is_Some (d !! k)))
  | PList l =>
      Ok (existsb (λ x, match x with
                        | PStr s => bool_decide (s = k)
                        | _ => false
                        end) l)
  | PStr s => Ok (is_substring k s)
  | _ => Raise TypeError
  end.

(** The registration check that [track_message] and [chat_member_updated]
    share: [None] when the group has no record, else the [owner_id] and
    [owner_name] of its record. *)
Definition lookup_owner (group_id : Z) : M state (option (pyval * pyval)) :=
  let group_id_str := str group_id in
  d <- get_data ;;
  gs <- pure (getitem d "groups") ;;
  registered <- pure (contains gs group_id_str) ;;
  if registered : bool then
    group_info <- pure (getitem gs group_id_str) ;;
    owner_id <- pure (getitem group_info "owner_id") ;;
    owner_name <- pure (getitem group_info "owner_name") ;;
    ret (Some (owner_id, owner_name))
  else ret None.

(** The outcome of a handler that records a trust.  [add_trust] is
    embedded for an integer truster id and a string name, which is what
    every group record written by [add_group] holds; for a record loaded
    with anything else under [owner_id] or [owner_name] the embedding
    gives no answer ([None]). *)
Definition handled (A : Type) : Type := option (result A * state).

Definition record_owner_trust (now : string) (io : save_outcome) (group_id : Z)
    (owner_id owner_name : pyval) (member : User) (σ : state) : handled unit :=
  match owner_id, owner_name with
  | PInt o, PStr n =>
      Some (add_trust now io group_id o n (user_id member) (full_name member) σ)
  | _, _ => None
  end.

(** [track_message] *)
Definition track_message (now : string) (io : save_outcome) (update : Update)
    (σ : state) : handled unit :=
  let chat := effective_chat update in
  let user := effective_user update in
  if negb (bool_decide (chat_type chat ∈ ["group"; "supergroup"])) then Some (Ok tt, σ)
  else
    let group_id := chat_id chat in
    match lookup_owner group_id σ with
    | (Raise e, σ') => Some (Raise e, σ')
    | (Ok None, σ') => Some (Ok tt, σ')
    | (Ok (Some (owner_id, owner_name)), σ') =>
        if negb (eq_int owner_id (user_id user)) then
          record_owner_trust now io group_id owner_id owner_name user σ'
        else Some (Ok tt, σ')
    end.

(** [chat_member_updated] *)
Definition chat_member_updated (now : string) (io : save_outcome) (update : Update)
    (σ : state) : handled unit :=
  let chat := effective_chat update in
  let new_member := new_chat_member update in
  if negb (bool_decide (chat_type chat ∈ ["group"; "supergroup"])) then Some (Ok tt, σ)
  else
    let group_id := chat_id chat in
    match lookup_owner group_id σ with
    | (Raise e, σ') => Some (Raise e, σ')
    | (Ok None, σ') => Some (Ok tt, σ')
    | (Ok (Some (owner_id, owner_name)), σ') =>
        if negb (eq_int owner_id (user_id (member_user new_member)))
           && bool_decide (member_status new_member ∈ ["member"; "administrator"])
        then record_owner_trust now io group_id owner_id owner_name
               (member_user new_member) σ'
        else Some (Ok tt, σ')
    end.

(** [update.message.reply_text(...)] in [scan_command]: a call of the
    platform, which delivers the reply or raises; [delivered] says which. *)
Definition reply_text (delivered : reply → bool) (r : reply) : M state reply :=
  if delivered r then ret r else raise TelegramError.

(** [scan_command]; [admins] and [member_count] are what
    [chat.get_administrators()] and [chat.get_member_count()] return,
    [None] when the call raises.  The handler returns the reply it has
    delivered last, or raises when a reply outside the [try] fails. *)
Definition scan_command (now : string) (io : save_outcome) (update : Update)
    (admins : option (list ChatMember)) (member_count : option Z)
    (delivered : reply → bool) : M state reply :=
  let chat := effective_chat update in
  if bool_decide (chat_type chat = "private") then reply_text delivered ScanPrivate
  else
    try_except
      (match admins with
       | None => raise TelegramError
       | Some admins =>
           match List.find (λ admin, bool_decide (member_status admin = "creator"))
                   admins with
           | None => reply_text delivered ScanNoOwner
           | Some creator =>
               let owner := member_user creator in
               match member_count with
               | None => raise TelegramError
               | Some n =>
                   add_group now io (chat_id chat) (chat_title chat)
                     (user_id owner) (full_name owner) ;;;
                   reply_text delivered (ScanRegistered (full_name owner) n)
               end
           end
       end)
      (λ e, reply_text delivered
              (ScanError match e with
                         | TelegramError => None
                         | _ => Some e
                         end)).

(** The lines of the trust list of a status report. *)
Fixpoint status_lines (trusts : list pyval) : result (list (pyval * pyval)) :=
  match trusts with
  | [] => Ok []
  | trust :: rest =>
      match getitem trust "truster_name" with
      | Raise e => Raise e
      | Ok truster =>
          match getitem trust "trustee_name" with
          | Raise e => Raise e
          | Ok trustee =>
              match status_lines rest with
              | Raise e => Raise e
              | Ok lines => Ok ((truster, trustee) :: lines)
              end
          end
      end
  end.

(** [status_command]; the result is the reply it hands to the platform.
    Whether that reply arrives changes nothing of the store and is left
    out here. *)
Definition status_command (update : Update) : M state reply :=
  let chat := effective_chat update in
  if bool_decide (chat_type chat = "private") then ret StatusPrivate
  else
    let group_id := chat_id chat in
    let group_id_str := str group_id in
    d <- get_data ;;
    gs <- pure (getitem d "groups") ;;
    registered <- pure (contains gs group_id_str) ;;
    if registered : bool then
      group_info <- pure (getitem gs group_id_str) ;;
      trusts <- get_group_trusts group_id ;;
      owner <- pure (getitem group_info "owner_name") ;;
      lines <- pure (status_lines trusts) ;;
      ret (StatusReport (chat_title chat) owner (length trusts) lines)
    else ret StatusNotRegistered.

(** The updates the bot handles, with what the environment supplies. *)
Inductive event : Type :=
| Message (now : string) (io : save_outcome) (update : Update)
| MemberUpdate (now : string) (io : save_outcome) (update : Update)
| Scan (now : string) (io : save_outcome) (update : Update)
    (admins : option (list ChatMember)) (member_count : option Z)
    (delivered : reply → bool)
| Status (update : Update).

(** The store after an update has been handled; a reply or an exception
    goes to the platform and the bot lives on. *)
Definition handle (ev : event) (σ : state) : option state :=
  match ev with
  | Message now io u => snd <$> track_message now io u σ
  | MemberUpdate now io u => snd <$> chat_member_updated now io u σ
  | Scan now io u admins n delivered =>
      Some (scan_command now io u admins n delivered σ).2
  | Status u => Some (status_command u σ).2
  end.

Fixpoint handle_all (evs : list event) (σ : state) : option state :=
  match evs with
  | [] => Some σ
  | ev :: rest =>
      match handle ev σ with
      | Some σ' => handle_all rest σ'
      | None => None
      end
  end.

(** Properties of a ledger that the handlers keep. *)
Definition no_self_trust (L : Ledger) : Prop :=
  Forall (λ t, truster_id t ≠ trustee_id t) (trusts L).

Definition groups_registered (L : Ledger) : Prop :=
  Forall (λ t, is_Some (groups L !! str (group_id t))) (trusts L).

Definition unique_keys (L : Ledger) : Prop := NoDup (key <$> trusts L).

(** The number of calls of [add_group] in a run. *)
Definition registrations (cs : list call) : nat :=
  length (List.filter (λ c, match c with
                            | AddGroup _ _ _ _ _ _ => true
                            | AddTrust _ _ _ _ _ _ _ => false
                            end) cs).

(** What each call of a run returns or raises, in order. *)
Fixpoint results (cs : list call) (σ : state) : list (result unit) :=
  match cs with
  | [] => []
  | c :: rest => (perform c σ).1 :: results rest (exec σ c)
  end.

(** What a call makes of a ledger, and of the world around it. *)
Definition ledger_after (L : Ledger) (c : call) : Ledger :=
  match c with
  | AddGroup now _ g n o on => with_group L now g n o on
  | AddTrust now _ g a an b bn =>
      if decide ((g, a, b) ∈ key <$> trusts L) then L
      else with_trust L (mkTrust g a an b bn now)
  end.

Definition world_after (path : string) (L : Ledger) (c : call) (w : world) : world :=
  match c with
  | AddGroup _ io _ _ _ _ => after_save path (ledger_data (ledger_after L c)) io w
  | AddTrust _ io g a _ b _ =>
      if decide ((g, a, b) ∈ key <$> trusts L) then w
      else after_save path (ledger_data (ledger_after L c)) io w
  end.

(** ** Subscripts of the dict literals *)

Lemma str_inj (m n : Z) : str m = str n → m = n.
Proof. unfold str. apply pretty_Z_inj. Qed.

Lemma getitem_groups G T : getitem (ledger_dict G T) "groups" = Ok (PDict G).
Proof. reflexivity. Qed.

Lemma getitem_trusts G T : getitem (ledger_dict G T) "trusts" = Ok (PList T).
Proof. reflexivity. Qed.

Lemma setitem_groups G T G' :
  setitem (ledger_dict G T) "groups" (PDict G') = Ok (ledger_dict G' T).
Proof. reflexivity. Qed.

Lemma setitem_trusts G T T' :
  setitem (ledger_dict G T) "trusts" (PList T') = Ok (ledger_dict G T').
Proof. reflexivity. Qed.

Lemma ledger_dict_inj G T G' T' :
  ledger_dict G T = ledger_dict G' T' → G = G' ∧ T = T'.
Proof.
  intros H.
  pose proof (f_equal (λ d, getitem d "groups") H) as Hg.
  pose proof (f_equal (λ d, getitem d "trusts") H) as Ht.
  cbv beta in Hg, Ht.
  rewrite !getitem_groups in Hg. rewrite !getitem_trusts in Ht.
  split; congruence.
Qed.

Lemma trust_record_fields t :
  getitem (trust_record t) "group_id" = Ok (PInt (group_id t))
  ∧ getitem (trust_record t) "truster_id" = Ok (PInt (truster_id t))
  ∧ getitem (trust_record t) "truster_name" = Ok (PStr (truster_name t))
  ∧ getitem (trust_record t) "trustee_id" = Ok (PInt (trustee_id t))
  ∧ getitem (trust_record t) "trustee_name" = Ok (PStr (trustee_name t))
  ∧ getitem (trust_record t) "created_at" = Ok (PStr (created_at t)).
Proof. repeat split; reflexivity. Qed.

Lemma group_record_fields g :
  getitem (group_record g) "name" = Ok (PStr (name g))
  ∧ getitem (group_record g) "owner_id" = Ok (PInt (owner_id g))
  ∧ getitem (group_record g) "owner_name" = Ok (PStr (owner_name g))
  ∧ getitem (group_record g) "added_at" = Ok (PStr (added_at g)).
Proof. repeat split; reflexivity. Qed.

Lemma trust_record_inj t t' : trust_record t = trust_record t' → t = t'.
Proof.
  intros H.
  destruct (trust_record_fields t) as (H1 & H2 & H3 & H4 & H5 & H6).
  destruct (trust_record_fields t') as (H1' & H2' & H3' & H4' & H5' & H6').
  rewrite H in H1, H2, H3, H4, H5, H6.
  destruct t, t'; simpl in *. congruence.
Qed.

Lemma group_record_inj g g' : group_record g = group_record g' → g = g'.
Proof.
  intros H.
  destruct (group_record_fields g) as (H1 & H2 & H3 & H4).
  destruct (group_record_fields g') as (H1' & H2' & H3' & H4').
  rewrite H in H1, H2, H3, H4.
  destruct g, g'; simpl in *. congruence.
Qed.

Lemma ledger_data_inj L L' : ledger_data L = ledger_data L' → L = L'.
Proof.
  unfold ledger_data. intros H. apply ledger_dict_inj in H as [HG HT].
  destruct L as [G T], L' as [G' T']; simpl in *. f_equal.
  - apply map_eq. intros k.
    pose proof (f_equal (λ m, m !! k) HG) as Hk. cbv beta in Hk.
    rewrite !lookup_fmap in Hk.
    destruct (G !! k) as [x|], (G' !! k) as [y|]; simpl in Hk; try congruence.
    f_equal. apply group_record_inj. congruence.
  - revert T' HT. induction T as [|t T IH]; intros [|t' T'] HT; csimpl in HT;
      try congruence.
    assert (trust_record t = trust_record t') as Ht by congruence.
    assert (trust_record <$> T = trust_record <$> T') as HT' by congruence.
    f_equal; [by apply trust_record_inj | by apply IH].
Qed.

(** ** The save *)

Lemma _save_data_spec io σ :
  _save_data io σ
  = (Ok tt, mkState (self σ)
              (after_save (data_file (self σ)) (data (self σ)) io (env σ))).
Proof.
  destruct σ as [[p d] [f n]]. destruct io; simpl;
    unfold _save_data, try_except, bind, get_data_file, get_data, in_world,
      open_w, json_dump, ret, after_save; simpl; try reflexivity.
  - by rewrite insert_insert_eq.
  - by rewrite insert_insert_eq.
Qed.

(** ** The methods on a ledger *)

Lemma same_key_record t g a b :
  same_key (trust_record t) g a b = Ok (bool_decide (key t = (g, a, b))).
Proof.
  unfold same_key.
  destruct (trust_record_fields t) as (-> & -> & _ & -> & _).
  unfold eq_int, key.
  repeat case_bool_decide; simplify_eq; try reflexivity; congruence.
Qed.

Lemma trust_exists_records T g a b :
  trust_exists (trust_record <$> T) g a b
  = Ok (bool_decide ((g, a, b) ∈ key <$> T)).
Proof.
  induction T as [|t T IH]; csimpl.
  - done.
  - rewrite same_key_record. destruct (decide (key t = (g, a, b))) as [Hk|Hk].
    + rewrite !bool_decide_eq_true_2; [done | rewrite Hk; left | done].
    + rewrite (bool_decide_eq_false_2 _ Hk), IH. f_equal. apply bool_decide_ext.
      rewrite elem_of_cons. split; [auto | intros [?|?]; [congruence | done]].
Qed.

Lemma select_group_id_records T g :
  select "group_id" g (trust_record <$> T)
  = Ok (trust_record <$> filter (λ t, group_id t = g) T).
Proof.
  induction T as [|t T IH]; [done |].
  rewrite fmap_cons. cbn [select].
  destruct (trust_record_fields t) as (-> & _). rewrite IH. cbn [eq_int].
  rewrite filter_cons. case_bool_decide; case_decide; done.
Qed.

Lemma select_truster_id_records T u :
  select "truster_id" u (trust_record <$> T)
  = Ok (trust_record <$> filter (λ t, truster_id t = u) T).
Proof.
  induction T as [|t T IH]; [done |].
  rewrite fmap_cons. cbn [select].
  destruct (trust_record_fields t) as (_ & -> & _). rewrite IH. cbn [eq_int].
  rewrite filter_cons. case_bool_decide; case_decide; done.
Qed.

(** Unfolds the monad around the subscripts, which stay folded for the
    lemmas above. *)
Ltac monad :=
  cbv [bind pure ret raise try_except get_data set_data get_data_file
       store self data env data_file ledger_data groups trusts
       with_group with_trust].

Lemma add_group_store path L w now io g n o on :
  let L' := with_group L now g n o on in
  add_group now io g n o on (store path L w)
  = (Ok tt, store path L' (after_save path (ledger_data L') io w)).
Proof.
  destruct L as [G T]. unfold add_group. monad.
  rewrite getitem_groups. cbn [setitem]. rewrite setitem_groups.
  rewrite _save_data_spec. monad. by rewrite fmap_insert.
Qed.

Lemma add_trust_store_dup path L w now io g a an b bn :
  (g, a, b) ∈ key <$> trusts L →
  add_trust now io g a an b bn (store path L w) = (Ok tt, store path L w).
Proof.
  destruct L as [G T]. intros Hin. unfold add_trust. monad.
  rewrite getitem_trusts. cbn [iter]. rewrite trust_exists_records.
  by rewrite bool_decide_eq_true_2.
Qed.

Lemma add_trust_store_new path L w now io g a an b bn :
  (g, a, b) ∉ key <$> trusts L →
  let L' := with_trust L (mkTrust g a an b bn now) in
  add_trust now io g a an b bn (store path L w)
  = (Ok tt, store path L' (after_save path (ledger_data L') io w)).
Proof.
  destruct L as [G T]. intros Hin. unfold add_trust. monad.
  rewrite getitem_trusts. cbn [iter]. rewrite trust_exists_records.
  rewrite bool_decide_eq_false_2 by done. cbn [append].
  rewrite setitem_trusts, _save_data_spec. monad. by rewrite fmap_app.
Qed.

Lemma get_group_trusts_store path L w g :
  get_group_trusts g (store path L w)
  = (Ok (trust_record <$> filter (λ t, group_id t = g) (trusts L)), store path L w).
Proof.
  destruct L as [G T]. unfold get_group_trusts. monad.
  rewrite getitem_trusts. cbn [iter]. by rewrite select_group_id_records.
Qed.

Lemma get_user_trusts_store path L w u :
  get_user_trusts u (store path L w)
  = (Ok (trust_record <$> filter (λ t, truster_id t = u) (trusts L)), store path L w).
Proof.
  destruct L as [G T]. unfold get_user_trusts. monad.
  rewrite getitem_trusts. cbn [iter]. by rewrite select_truster_id_records.
Qed.

(** ** Opening a store *)

Lemma _load_data_absent path w :
  fs w !! path = None → _load_data path w = (Ok empty_ledger, w).
Proof.
  intros H. unfold _load_data, exists_. monad. by rewrite H.
Qed.

Lemma _load_data_corrupt path w raw :
  fs w !! path = Some (Corrupt raw) → _load_data path w = (Ok empty_ledger, w).
Proof.
  intros H. unfold _load_data, exists_, open_r. monad. by rewrite !H.
Qed.

Lemma _load_data_json path w v :
  fs w !! path = Some (Json v) → _load_data path w = (Ok v, w).
Proof.
  intros H. unfold _load_data, exists_, open_r. monad. by rewrite !H.
Qed.


Lemma __init___absent path w :
  fs w !! path = None → __init__ path w = (Ok (mkStorage path empty_ledger), w).
Proof. intros H. unfold __init__. monad. by rewrite (_load_data_absent _ _ H). Qed.

Lemma __init___corrupt path w raw :
  fs w !! path = Some (Corrupt raw) →
  __init__ path w = (Ok (mkStorage path empty_ledger), w).
Proof. intros H. unfold __init__. monad. by rewrite (_load_data_corrupt _ _ _ H). Qed.

Lemma __init___json path w v :
  fs w !! path = Some (Json v) → __init__ path w = (Ok (mkStorage path v), w).
Proof. intros H. unfold __init__. monad. by rewrite (_load_data_json _ _ _ H). Qed.


Lemma __init___total path w :
  fs w !! path ≠ Some NoAccess →
  ∃ d, __init__ path w = (Ok (mkStorage path d), w).
Proof.
  intros Hacc. destruct (fs w !! path) as [[v|raw|]|] eqn:H.
  - exists v. by apply __init___json.
  - exists empty_ledger. by apply (__init___corrupt _ _ raw).
  - done.
  - exists empty_ledger. by apply __init___absent.
Qed.

Lemma empty_ledger_data : empty_ledger = ledger_data (mkLedger ∅ []).
Proof. reflexivity. Qed.

Lemma perform_store path L w c :
  ∃ L' w', perform c (store path L w) = (Ok tt, store path L' w').
Proof.
  destruct c as [now io g n o on | now io g a an b bn]; cbn [perform].
  - eexists _, _. apply add_group_store.
  - destruct (decide ((g, a, b) ∈ key <$> trusts L)) as [Hin|Hin].
    + eexists _, _. by apply add_trust_store_dup.
    + eexists _, _. by apply add_trust_store_new.
Qed.

(** C7. Opening a store against a path that does not exist gives the ledger
    with an empty groups mapping and an empty trusts sequence, and leaves
    the file system as it was. *)
Theorem init_empty path w :
  fs w !! path = None →
  __init__ path w = (Ok (mkStorage path empty_ledger), w)
  ∧ empty_ledger = ledger_data (mkLedger ∅ [])
  ∧ getitem empty_ledger "groups" = Ok (PDict ∅)
  ∧ getitem empty_ledger "trusts" = Ok (PList []).
Proof.
  intros H. split; [by apply __init___absent | repeat split].
Qed.

Lemma init_empty_witness :
  __init__ "/tmp/test_trust_init.json" no_files
  = (Ok (mkStorage "/tmp/test_trust_init.json" empty_ledger), no_files)
  ∧ empty_ledger = ledger_data (mkLedger ∅ [])
  ∧ getitem empty_ledger "groups" = Ok (PDict ∅)
  ∧ getitem empty_ledger "trusts" = Ok (PList []).
Proof. apply (init_empty "/tmp/test_trust_init.json" no_files). reflexivity. Defined.

(** C2, as amended. When the path can be examined, that is when
    [exists()] answers, opening a store does not raise and does not change
    the file system.  A missing file and a file that cannot be opened or
    parsed give the empty ledger; a file that parses is taken as it is,
    whatever its shape.  On a value of the ledger shape, the empty ledger
    included, every later call returns normally and leaves a ledger. *)
Theorem open_falls_back_to_empty path w :
  (fs w !! path ≠ Some NoAccess →
     ∃ d, __init__ path w = (Ok (mkStorage path d), w))
  ∧ (fs w !! path = None →
       __init__ path w = (Ok (mkStorage path empty_ledger), w))
  ∧ (∀ raw, fs w !! path = Some (Corrupt raw) →
       __init__ path w = (Ok (mkStorage path empty_ledger), w))
  ∧ (∀ v, fs w !! path = Some (Json v) →
       __init__ path w = (Ok (mkStorage path v), w))
  ∧ empty_ledger = ledger_data (mkLedger ∅ [])
  ∧ (∀ L w1 c, ∃ L' w', perform c (store path L w1) = (Ok tt, store path L' w'))
  ∧ (∀ L w1 g, ∃ r, get_group_trusts g (store path L w1) = (Ok r, store path L w1))
  ∧ (∀ L w1 u, ∃ r, get_user_trusts u (store path L w1) = (Ok r, store path L w1)).
Proof.
  split; [apply __init___total |].
  split; [apply __init___absent |].
  split; [apply __init___corrupt |].
  split; [apply __init___json |].
  split; [reflexivity |].
  split; [intros; apply perform_store |].
  split; intros; eexists.
  - apply get_group_trusts_store.
  - apply get_user_trusts_store.
Qed.

(** C2, as stated, fails on a file that parses but is not a ledger: with
    the document [{}] on disk the store holds [{}], which is neither the
    empty ledger nor any ledger, and every method raises [KeyError]. *)
Lemma open_loads_any_document :
  let w := mkWorld {[ "trust_data.json" := Json (PDict ∅) ]} 0 in
  let σ := mkState (mkStorage "trust_data.json" (PDict ∅)) w in
  __init__ "trust_data.json" w = (Ok (self σ), w)
  ∧ ¬ (∃ L, data (self σ) = ledger_data L)
  ∧ add_trust "t0" SaveOk (-123456) 111111 "Owner" 222222 "Member" σ
    = (Raise (KeyError "trusts"), σ)
  ∧ add_group "t0" SaveOk (-123456) "Test Group" 111111 "Test Owner" σ
    = (Raise (KeyError "groups"), σ)
  ∧ get_group_trusts (-123456) σ = (Raise (KeyError "trusts"), σ)
  ∧ ¬ (∀ path w, ∃ st L, __init__ path w = (Ok st, w) ∧ data st = ledger_data L).
Proof.
  assert (¬ (∃ L, PDict ∅ = ledger_data L)) as Hno.
  { intros [L HL].
    pose proof (f_equal (λ d, is_ok (getitem d "groups")) HL) as H.
    cbv beta in H. unfold ledger_data in H. rewrite getitem_groups in H.
    discriminate H. }
  cbn zeta. repeat split; try reflexivity; try exact Hno.
  intros Hall.
  destruct (Hall "trust_data.json"
              (mkWorld {[ "trust_data.json" := Json (PDict ∅) ]} 0))
    as (st & L & Hst & HL).
  apply Hno. exists L. rewrite <- HL.
  assert (__init__ "trust_data.json"
            (mkWorld {[ "trust_data.json" := Json (PDict ∅) ]} 0)
          = (Ok (mkStorage "trust_data.json" (PDict ∅)),
             mkWorld {[ "trust_data.json" := Json (PDict ∅) ]} 0)) as E
    by reflexivity.
  rewrite E in Hst. by injection Hst as <-.
Qed.

(** ** Recording a trust edge *)




(** ** Queries *)

(** C4. On any ledger, [get_group_trusts g] returns the records of exactly
    the edges whose [group_id] is [g], in the order of the sequence, and
    leaves the store and the world as they were. *)
Theorem get_group_trusts_exact path L w g :
  let r := filter (λ t, group_id t = g) (trusts L) in
  get_group_trusts g (store path L w) = (Ok (trust_record <$> r), store path L w)
  ∧ (∀ t, t ∈ r ↔ t ∈ trusts L ∧ group_id t = g)
  ∧ sublist r (trusts L)
  ∧ Forall (λ v, getitem v "group_id" = Ok (PInt g)) (trust_record <$> r).
Proof.
  intros r. split; [apply get_group_trusts_store |].
  split; [intros t; subst r; rewrite list_elem_of_filter; tauto |].
  split; [apply sublist_filter |].
  apply Forall_fmap, Forall_forall. intros t Ht.
  apply list_elem_of_filter in Ht as [<- _]. apply trust_record_fields.
Qed.

(** C5. On any ledger, [get_user_trusts u] returns the records of exactly
    the edges whose [truster_id] is [u], whatever their group, in the order
    of the sequence, and leaves the store and the world as they were. *)
Theorem get_user_trusts_exact path L w u :
  let r := filter (λ t, truster_id t = u) (trusts L) in
  get_user_trusts u (store path L w) = (Ok (trust_record <$> r), store path L w)
  ∧ (∀ t, t ∈ r ↔ t ∈ trusts L ∧ truster_id t = u)
  ∧ sublist r (trusts L)
  ∧ Forall (λ v, getitem v "truster_id" = Ok (PInt u)) (trust_record <$> r).
Proof.
  intros r. split; [apply get_user_trusts_store |].
  split; [intros t; subst r; rewrite list_elem_of_filter; tauto |].
  split; [apply sublist_filter |].
  apply Forall_fmap, Forall_forall. intros t Ht.
  apply list_elem_of_filter in Ht as [<- _]. apply trust_record_fields.
Qed.

(** ** Registering groups *)

Lemma run_snoc cs c σ : run (cs ++ [c]) σ = exec (run cs σ) c.
Proof. unfold run. by rewrite foldl_app. Qed.

Lemma exec_add_group path L w now io g n o on :
  exec (store path L w) (AddGroup now io g n o on)
  = store path (with_group L now g n o on)
      (after_save path (ledger_data (with_group L now g n o on)) io w).
Proof. unfold exec. cbn [perform]. by rewrite add_group_store. Qed.

Lemma store_inj path L w path' L' w' :
  store path L w = store path' L' w' → path = path' ∧ L = L' ∧ w = w'.
Proof.
  intros H.
  pose proof (f_equal (λ σ, data_file (self σ)) H) as Hp.
  pose proof (f_equal (λ σ, data (self σ)) H) as Hd.
  pose proof (f_equal env H) as Hw.
  cbn [store self data data_file env] in Hp, Hd, Hw.
  by apply ledger_data_inj in Hd.
Qed.

Lemma run_add_groups path cs : ∀ L w,
  Forall is_add_group cs →
  ∃ L' w', run cs (store path L w) = store path L' w'
    ∧ trusts L' = trusts L
    ∧ dom (groups L') = dom (groups L) ∪ list_to_set (str <$> (call_group <$> cs)).
Proof.
  induction cs as [|c cs IH]; intros L w Hcs.
  - exists L, w. repeat split. set_solver.
  - apply Forall_cons in Hcs as [Hc Hcs].
    destruct c as [now io g n o on | ]; [| done].
    cbn [run foldl]. rewrite exec_add_group.
    destruct (IH (with_group L now g n o on)
                 (after_save path (ledger_data (with_group L now g n o on)) io w)
                 Hcs) as (L' & w' & Hrun & HT & HD).
    exists L', w'. split; [exact Hrun |]. split; [exact HT |].
    rewrite HD. cbn [with_group groups]. rewrite dom_insert_L.
    rewrite !fmap_cons. cbn [call_group list_to_set]. set_solver.
Qed.

Lemma entries_under_key {A} (G : gmap string A) (k : string) :
  (length (filter (λ kv, kv.1 = k) (map_to_list G)) ≤ 1)%nat.
Proof.
  pose proof (NoDup_fst_map_to_list G) as Hnd.
  induction (map_to_list G) as [|[k' x] l IH]; [simpl; lia |].
  rewrite fmap_cons in Hnd. apply NoDup_cons in Hnd as [Hnotin Hnd].
  rewrite filter_cons. case_decide as Hk; simpl in Hk; [| by apply IH].
  subst k'. assert (filter (λ kv : string * A, kv.1 = k) l = []) as ->; [| simpl; lia].
  clear IH Hnd. induction l as [|[k'' y] l IH]; [done |].
  rewrite fmap_cons, not_elem_of_cons in Hnotin. destruct Hnotin as [Hne Hnotin].
  simpl in Hne, Hnotin, IH.
  rewrite filter_cons. case_decide as Hk; simpl in Hk; [congruence | by apply IH].
Qed.

Lemma size_decimal_keys (ids : list Z) :
  size (list_to_set (str <$> ids) : gset string) = length (remove_dups ids).
Proof.
  assert ((list_to_set (str <$> ids) : gset string)
          = list_to_set (str <$> remove_dups ids)) as ->.
  { apply set_eq. intros k. rewrite !elem_of_list_to_set, !list_elem_of_fmap.
    split; intros (n & -> & Hn); exists n; split; try done;
      by apply elem_of_remove_dups. }
  rewrite size_list_to_set, length_fmap; [done |].
  apply NoDup_fmap_2; [intros m n; apply str_inj | apply NoDup_remove_dups].
Qed.

(** C3. Over any run of [add_group] calls the groups mapping holds at most
    one record under the key of each group id, the trusts are untouched,
    and the keys are those already there and those of the ids registered;
    from an empty mapping there are as many records as distinct ids.  When
    the last two calls name the same group, the record under its key is the
    second call's, and the mapping is the one the second call alone would
    have left: read from [self.data], the dict under the group's key holds
    the name, owner id, owner name and time of the second call.  The same
    counts hold of the dict that [self.data] keeps under ["groups"]. *)
Theorem add_group_last_write_wins path L w cs :
  Forall is_add_group cs →
  ∃ L' w', run cs (store path L w) = store path L' w'
    ∧ trusts L' = trusts L
    ∧ dom (groups L') = dom (groups L) ∪ list_to_set (str <$> (call_group <$> cs))
    ∧ (∀ g, (length (filter (λ kv, kv.1 = str g) (map_to_list (groups L'))) ≤ 1)%nat)
    ∧ (groups L = ∅ → size (groups L') = length (remove_dups (call_group <$> cs)))
    ∧ (∀ cs0 now1 io1 n1 o1 on1 now2 io2 n2 o2 on2 g,
         cs = cs0 ++ [AddGroup now1 io1 g n1 o1 on1; AddGroup now2 io2 g n2 o2 on2] →
         groups L' !! str g = Some (mkGroup n2 o2 on2 now2)
         ∧ (∃ w2, run (cs0 ++ [AddGroup now2 io2 g n2 o2 on2]) (store path L w)
                  = store path L' w2)
         ∧ ∃ gs record,
             getitem (data (self (run cs (store path L w)))) "groups" = Ok gs
             ∧ getitem gs (str g) = Ok record
             ∧ getitem record "name" = Ok (PStr n2)
             ∧ getitem record "owner_id" = Ok (PInt o2)
             ∧ getitem record "owner_name" = Ok (PStr on2)
             ∧ getitem record "added_at" = Ok (PStr now2))
    ∧ (∃ gs : gmap string pyval,
         getitem (data (self (run cs (store path L w)))) "groups" = Ok (PDict gs)
         ∧ dom gs = dom (groups L) ∪ list_to_set (str <$> (call_group <$> cs))
         ∧ (∀ g, (length (filter (λ kv, kv.1 = str g) (map_to_list gs)) ≤ 1)%nat)
         ∧ (groups L = ∅ → size gs = length (remove_dups (call_group <$> cs)))).
Proof.
  intros Hcs.
  destruct (run_add_groups path cs L w Hcs) as (L' & w' & Hrun & HT & HD).
  assert (getitem (data (self (run cs (store path L w)))) "groups"
          = Ok (PDict (group_record <$> groups L'))) as Hgs.
  { rewrite Hrun. cbn [store self data]. unfold ledger_data. apply getitem_groups. }
  assert (groups L = ∅ → size (groups L') = length (remove_dups (call_group <$> cs)))
    as Hsize.
  { intros HG. rewrite <- size_dom, HD, HG, dom_empty_L, (left_id_L ∅ (∪)).
    apply size_decimal_keys. }
  exists L', w'. split; [exact Hrun |]. split; [exact HT |]. split; [exact HD |].
  split; [intros g; apply entries_under_key |].
  split; [exact Hsize |].
  split.
  - intros cs0 now1 io1 n1 o1 on1 now2 io2 n2 o2 on2 g ->.
    apply Forall_app in Hcs as [Hcs0 _].
    destruct (run_add_groups path cs0 L w Hcs0) as (L0 & w0 & Hrun0 & _ & _).
    change [AddGroup now1 io1 g n1 o1 on1; AddGroup now2 io2 g n2 o2 on2]
      with ([AddGroup now1 io1 g n1 o1 on1] ++ [AddGroup now2 io2 g n2 o2 on2])
      in Hrun.
    rewrite app_assoc, !run_snoc, Hrun0, !exec_add_group in Hrun.
    apply store_inj in Hrun as (_ & HL & _).
    assert (groups L' = <[str g := mkGroup n2 o2 on2 now2]> (groups L0)) as HG.
    { rewrite <- HL. cbn [with_group groups]. apply insert_insert_eq. }
    assert (groups L' !! str g = Some (mkGroup n2 o2 on2 now2)) as Hlook
      by (rewrite HG; apply lookup_insert_eq).
    split; [exact Hlook |]. split.
    + rewrite run_snoc, Hrun0, exec_add_group. eexists. f_equal.
      rewrite <- HL. unfold with_group. cbn [groups trusts]. f_equal.
      symmetry. apply insert_insert_eq.
    + exists (PDict (group_record <$> groups L')),
             (group_record (mkGroup n2 o2 on2 now2)).
      split; [exact Hgs |].
      split; [cbn [getitem]; by rewrite lookup_fmap, Hlook |].
      apply (group_record_fields (mkGroup n2 o2 on2 now2)).
  - exists (group_record <$> groups L'). split; [exact Hgs |].
    split; [by rewrite dom_fmap_L |].
    split; [intros g; apply entries_under_key |].
    intros HG. rewrite map_size_fmap. by apply Hsize.
Qed.

Lemma add_group_last_write_wins_witness :
  ∃ L' w',
    run [AddGroup "t1" SaveOk (-123456) "Test Group" 111111 "Test Owner";
         AddGroup "t2" SaveOk (-123456) "Renamed" 333333 "New Owner"]
        (store "trust_data.json" (mkLedger ∅ []) no_files)
    = store "trust_data.json" L' w'
    ∧ groups L' !! str (-123456) = Some (mkGroup "Renamed" 333333 "New Owner" "t2")
    ∧ size (groups L') = 1%nat
    ∧ ∃ gs record,
        getitem (data (self
          (run [AddGroup "t1" SaveOk (-123456) "Test Group" 111111 "Test Owner";
                AddGroup "t2" SaveOk (-123456) "Renamed" 333333 "New Owner"]
             (store "trust_data.json" (mkLedger ∅ []) no_files)))) "groups" = Ok gs
        ∧ getitem gs (str (-123456)) = Ok record
        ∧ getitem record "name" = Ok (PStr "Renamed")
        ∧ getitem record "owner_id" = Ok (PInt 333333)
        ∧ getitem record "owner_name" = Ok (PStr "New Owner")
        ∧ getitem record "added_at" = Ok (PStr "t2").
Proof.
  destruct (add_group_last_write_wins "trust_data.json" (mkLedger ∅ []) no_files
              [AddGroup "t1" SaveOk (-123456) "Test Group" 111111 "Test Owner";
               AddGroup "t2" SaveOk (-123456) "Renamed" 333333 "New Owner"])
    as (L' & w' & Hrun & _ & _ & _ & Hsize & Hlast & _).
  - repeat constructor.
  - destruct (Hlast [] "t1" SaveOk "Test Group" 111111 "Test Owner"
                "t2" SaveOk "Renamed" 333333 "New Owner" (-123456) eq_refl)
      as (Hlook & _ & Hread).
    exists L', w'. split; [exact Hrun |]. split; [exact Hlook |].
    split; [exact (Hsize eq_refl) | exact Hread].
Defined.

(** ** The methods on any value of [self.data] *)

(** [add_group] either raises before it has changed anything, or replaces
    one entry of the dict under ["groups"] and saves. *)
Lemma add_group_cases now io g n o on σ :
  (∃ e, add_group now io g n o on σ = (Raise e, σ))
  ∨ (∃ m G,
       data (self σ) = PDict m ∧ m !! "groups" = Some (PDict G)
       ∧ let d' := PDict (<["groups" :=
                     PDict (<[str g := group_record (mkGroup n o on now)]> G)]> m) in
         add_group now io g n o on σ
         = (Ok tt, mkState (mkStorage (data_file (self σ)) d')
                     (after_save (data_file (self σ)) d' io (env σ)))).
Proof.
  destruct σ as [[p d] w]. unfold add_group. monad.
  destruct d as [| | | | | |m]; try (left; eexists; reflexivity).
  cbn [getitem]. destruct (m !! "groups") as [gs|] eqn:Hm;
    [| left; eexists; reflexivity].
  destruct gs as [| | | | | |G]; try (left; eexists; reflexivity).
  right. exists m, G. split; [done |]. split; [done |].
  cbn [setitem]. rewrite _save_data_spec. reflexivity.
Qed.

(** [add_trust] either raises before it has changed anything, or finds the
    key and changes nothing, or appends its record to the list under
    ["trusts"] and saves. *)
Lemma add_trust_cases now io g a an b bn σ :
  (∃ e, add_trust now io g a an b bn σ = (Raise e, σ))
  ∨ add_trust now io g a an b bn σ = (Ok tt, σ)
  ∨ (∃ m T,
       data (self σ) = PDict m ∧ m !! "trusts" = Some (PList T)
       ∧ trust_exists T g a b = Ok false
       ∧ let d' := PDict (<["trusts" :=
                     PList (T ++ [trust_record (mkTrust g a an b bn now)])]> m) in
         add_trust now io g a an b bn σ
         = (Ok tt, mkState (mkStorage (data_file (self σ)) d')
                     (after_save (data_file (self σ)) d' io (env σ)))).
Proof.
  destruct σ as [[p d] w]. unfold add_trust. monad.
  destruct d as [| | | | | |m]; try (left; eexists; reflexivity).
  cbn [getitem]. destruct (m !! "trusts") as [ts|] eqn:Hm;
    [| left; eexists; reflexivity].
  destruct (iter ts) as [items|e] eqn:Hit; [| left; eexists; reflexivity].
  destruct (trust_exists items g a b) as [[|]|e] eqn:Hex;
    [right; left; reflexivity | | left; eexists; reflexivity].
  destruct ts as [| | | | | T |G]; try discriminate Hit;
    try (left; eexists; reflexivity).
  cbn [iter] in Hit. injection Hit as <-.
  right; right. exists m, T. split; [done |]. split; [done |]. split; [done |].
  cbn [append setitem]. rewrite _save_data_spec. reflexivity.
Qed.

(** After a call the store is as it was, or holds a new value that has
    been handed to a save. *)
Lemma exec_cases σ c :
  exec σ c = σ
  ∨ ∃ d', exec σ c = mkState (mkStorage (data_file (self σ)) d')
                       (after_save (data_file (self σ)) d' (call_io c) (env σ)).
Proof.
  unfold exec. destruct c as [now io g n o on | now io g a an b bn]; cbn [perform call_io].
  - destruct (add_group_cases now io g n o on σ) as [[e ->] | (m & G & _ & _ & ->)];
      [by left | right; eexists; reflexivity].
  - destruct (add_trust_cases now io g a an b bn σ)
      as [[e ->] | [-> | (m & T & _ & _ & _ & ->)]];
      [by left | by left | right; eexists; reflexivity].
Qed.

Lemma exec_data_file σ c : data_file (self (exec σ c)) = data_file (self σ).
Proof. destruct (exec_cases σ c) as [-> | [d' ->]]; reflexivity. Qed.

Lemma run_data_file cs : ∀ σ, data_file (self (run cs σ)) = data_file (self σ).
Proof.
  induction cs as [|c cs IH]; intros σ; [done |].
  cbn [run foldl]. fold (run cs (exec σ c)). by rewrite IH, exec_data_file.
Qed.

(** C9. [add_group] changes the record under the key of its group id and
    nothing else of the ledger: the trusts sequence is the same, and so is
    the entry under every other key, in particular under the key of every
    other group id; whatever [self.data] holds, the value under ["trusts"]
    is not touched.  The edges of the group recorded before a
    re-registration under a new owner are all still returned after it. *)
Theorem add_group_frame path L w now io g n o on :
  let σ := store path L w in
  ∃ L' w',
    add_group now io g n o on σ = (Ok tt, store path L' w')
    ∧ trusts L' = trusts L
    ∧ groups L' !! str g = Some (mkGroup n o on now)
    ∧ (∀ k, k ≠ str g → groups L' !! k = groups L !! k)
    ∧ (∀ g', g' ≠ g → groups L' !! str g' = groups L !! str g')
    ∧ (∀ g', (get_group_trusts g' (store path L' w')).1 = (get_group_trusts g' σ).1)
    ∧ (∀ u, (get_user_trusts u (store path L' w')).1 = (get_user_trusts u σ).1)
    ∧ (∀ σ0 : state,
         getitem (data (self (exec σ0 (AddGroup now io g n o on)))) "trusts"
         = getitem (data (self σ0)) "trusts").
Proof.
  intros σ. subst σ. eexists _, _. split; [apply add_group_store |].
  split; [reflexivity |].
  split; [apply lookup_insert_eq |].
  split; [intros k Hk; apply lookup_insert_ne; congruence |].
  split; [intros g' Hg; apply lookup_insert_ne; intros ?%str_inj; congruence |].
  split; [intros g'; by rewrite !get_group_trusts_store |].
  split; [intros u; by rewrite !get_user_trusts_store |].
  intros σ0. unfold exec. cbn [perform].
  destruct (add_group_cases now io g n o on σ0) as [[e ->] | (m & G & Hd & Hm & ->)];
    [done |].
  cbn [snd self data]. rewrite Hd. cbn [getitem].
  by rewrite lookup_insert_ne.
Qed.


(** ** Persistence *)

Lemma __init___after_save_ok path d w :
  __init__ path (after_save path d SaveOk w)
  = (Ok (mkStorage path d), after_save path d SaveOk w).
Proof.
  unfold __init__. monad. rewrite (_load_data_json _ _ d); [done |].
  apply lookup_insert_eq.
Qed.

Lemma exec_reloads σ c :
  call_io c = SaveOk →
  __init__ (data_file (self σ)) (env σ) = (Ok (self σ), env σ) →
  __init__ (data_file (self (exec σ c))) (env (exec σ c))
  = (Ok (self (exec σ c)), env (exec σ c)).
Proof.
  intros Hio Hσ. destruct (exec_cases σ c) as [-> | [d' ->]]; [done |].
  rewrite Hio. cbn [self env data_file]. apply __init___after_save_ok.
Qed.

Lemma run_reloads cs : ∀ σ,
  Forall (λ c, call_io c = SaveOk) cs →
  __init__ (data_file (self σ)) (env σ) = (Ok (self σ), env σ) →
  __init__ (data_file (self (run cs σ))) (env (run cs σ))
  = (Ok (self (run cs σ)), env (run cs σ)).
Proof.
  induction cs as [|c cs IH]; intros σ Hcs Hσ; [done |].
  apply Forall_cons in Hcs as [Hc Hcs]. cbn [run foldl]. fold (run cs (exec σ c)).
  apply IH; [done | by apply exec_reloads].
Qed.

(** C6. Open a store at a path, whatever the path holds as long as it can
    be examined, and make any calls of [add_group] and [add_trust] whose
    saves all succeed.  A fresh store opened at the same path then holds a
    value equal to the [self.data] of the first one, groups and trusts
    alike, and opening it changes nothing on disk. *)
Theorem persistence_round_trip path w0 cs :
  Forall (λ c, call_io c = SaveOk) cs →
  fs w0 !! path ≠ Some NoAccess →
  ∃ st, __init__ path w0 = (Ok st, w0)
    ∧ let σ := run cs (mkState st w0) in
      __init__ path (env σ) = (Ok (self σ), env σ)
      ∧ data_file (self σ) = path.
Proof.
  intros Hcs Hacc. destruct (__init___total path w0 Hacc) as [d Hd].
  exists (mkStorage path d). split; [exact Hd |]. cbn zeta.
  pose proof (run_reloads cs (mkState (mkStorage path d) w0) Hcs Hd) as H.
  rewrite run_data_file in H. cbn [self data_file] in H.
  split; [exact H |]. by rewrite run_data_file.
Qed.

Lemma persistence_round_trip_witness :
  ∃ st, __init__ "/tmp/test_trust_persist.json" no_files = (Ok st, no_files)
    ∧ let σ := run [AddGroup "t0" SaveOk (-123456) "Test Group" 111111 "Owner";
                    AddTrust "t1" SaveOk (-123456) 111111 "Owner" 222222 "Member"]
                 (mkState st no_files) in
      __init__ "/tmp/test_trust_persist.json" (env σ) = (Ok (self σ), env σ)
      ∧ data_file (self σ) = "/tmp/test_trust_persist.json".
Proof.
  apply (persistence_round_trip "/tmp/test_trust_persist.json" no_files
           [AddGroup "t0" SaveOk (-123456) "Test Group" 111111 "Owner";
            AddTrust "t1" SaveOk (-123456) 111111 "Owner" 222222 "Member"]).
  - repeat constructor.
  - discriminate.
Defined.

(** ** The key asymmetry *)









(** ** The scenarios of test_bot.py *)

Example test_storage_initialization :
  __init__ "/tmp/test_trust_init.json" no_files
  = (Ok (mkStorage "/tmp/test_trust_init.json" empty_ledger), no_files).
Proof. reflexivity. Qed.

Example test_add_group :
  let σ := exec (fresh "/tmp/test_trust_group.json")
             (AddGroup "t0" SaveOk (-123456) "Test Group" 111111 "Test Owner") in
  data (self σ)
  = ledger_data (mkLedger {[ "-123456" := mkGroup "Test Group" 111111 "Test Owner" "t0" ]} []).
Proof. vm_compute. reflexivity. Qed.

Example test_duplicate_trust :
  let σ := run [AddTrust "t0" SaveOk (-123456) 111111 "Owner" 222222 "Member";
                AddTrust "t1" SaveOk (-123456) 111111 "Owner" 222222 "Member"]
             (fresh "/tmp/test_trust_dup.json") in
  data (self σ)
  = ledger_data (mkLedger ∅ [mkTrust (-123456) 111111 "Owner" 222222 "Member" "t0"])
  ∧ writes (env σ) = 1%nat.
Proof. vm_compute. split; reflexivity. Qed.

Example test_get_group_trusts :
  let σ := run [AddTrust "t0" SaveOk (-111) 100 "Owner1" 200 "Member1";
                AddTrust "t1" SaveOk (-111) 100 "Owner1" 201 "Member2";
                AddTrust "t2" SaveOk (-222) 300 "Owner2" 400 "Member3"]
             (fresh "/tmp/test_trust_get.json") in
  (length <$> (match (get_group_trusts (-111) σ).1 with Ok l => Some l | _ => None end)) = Some 2%nat
  ∧ (length <$> (match (get_group_trusts (-222) σ).1 with Ok l => Some l | _ => None end)) = Some 1%nat.
Proof. vm_compute. split; reflexivity. Qed.

(** ... and [test_persistence].  With a save that fails the fresh store
    sees what the path held before, not what the first store holds. *)
Example test_persistence :
  let σ := run [AddGroup "t0" SaveOk (-123456) "Test Group" 111111 "Owner";
                AddTrust "t1" SaveOk (-123456) 111111 "Owner" 222222 "Member"]
             (fresh "/tmp/test_trust_persist.json") in
  __init__ "/tmp/test_trust_persist.json" (env σ) = (Ok (self σ), env σ)
  ∧ data (self σ)
    = ledger_data (mkLedger {[ "-123456" := mkGroup "Test Group" 111111 "Owner" "t0" ]}
                     [mkTrust (-123456) 111111 "Owner" 222222 "Member" "t1"]).
Proof. vm_compute. split; reflexivity. Qed.

Example failed_save_is_not_reloaded :
  let σ := run [AddGroup "t0" OpenFails (-123456) "Test Group" 111111 "Owner"]
             (fresh "/tmp/test_trust_persist.json") in
  __init__ "/tmp/test_trust_persist.json" (env σ)
  = (Ok (mkStorage "/tmp/test_trust_persist.json" empty_ledger), env σ)
  ∧ data (self σ) ≠ empty_ledger.
Proof.
  split; [vm_compute; reflexivity |].
  intros H. pose proof (f_equal (λ d, match getitem d "groups" with
                                      | Ok g => is_ok (getitem g "-123456")
                                      | Raise _ => false
                                      end) H) as E.
  vm_compute in E. discriminate E.
Qed.

(** ** Runs of calls on a ledger *)

Lemma exec_store path L w c :
  perform c (store path L w)
  = (Ok tt, store path (ledger_after L c) (world_after path L c w)).
Proof.
  destruct c as [now io g n o on | now io g a an b bn]; cbn [perform ledger_after world_after].
  - apply add_group_store.
  - destruct (decide ((g, a, b) ∈ key <$> trusts L)) as [Hin|Hin].
    + by apply add_trust_store_dup.
    + by apply add_trust_store_new.
Qed.

Lemma exec_ledger path L w c :
  exec (store path L w) c = store path (ledger_after L c) (world_after path L c w).
Proof. unfold exec. by rewrite exec_store. Qed.

Lemma run_store path cs : ∀ L w,
  ∃ w', run cs (store path L w) = store path (foldl ledger_after L cs) w'.
Proof.
  induction cs as [|c cs IH]; intros L w; [by exists w |].
  cbn [run foldl]. rewrite exec_ledger. apply (IH (ledger_after L c)).
Qed.

(** A call that raises has changed nothing: [self.data], the file and the
    count of writes are as before the call, whatever [self.data] held. *)
Theorem raising_call_changes_nothing c σ e :
  (perform c σ).1 = Raise e → (perform c σ).2 = σ.
Proof.
  destruct c as [now io g n o on | now io g a an b bn]; cbn [perform].
  - destruct (add_group_cases now io g n o on σ) as [[e' ->] | (m & G & _ & _ & ->)];
      [done | discriminate].
  - destruct (add_trust_cases now io g a an b bn σ)
      as [[e' ->] | [-> | (m & T & _ & _ & _ & ->)]]; [done | done | discriminate].
Qed.

Lemma raising_call_changes_nothing_witness :
  let σ := mkState (mkStorage "trust_data.json"
                      (ledger_dict ∅ [PDict {[ "group_id" := PInt 7 ]}]))
             (mkWorld {[ "trust_data.json" := Corrupt "{" ]} 3) in
  (perform (AddTrust "t0" SaveOk 7 1 "Owner" 2 "Member") σ).2 = σ.
Proof.
  apply (raising_call_changes_nothing (AddTrust "t0" SaveOk 7 1 "Owner" 2 "Member")
           _ (KeyError "truster_id")).
  reflexivity.
Defined.

Lemma ledger_after_unique_keys L c : unique_keys L → unique_keys (ledger_after L c).
Proof.
  unfold unique_keys. intros HL.
  destruct c as [now io g n o on | now io g a an b bn]; cbn [ledger_after]; [done |].
  destruct (decide ((g, a, b) ∈ key <$> trusts L)) as [Hin|Hin]; [done |].
  cbn [with_trust trusts]. rewrite fmap_app. apply NoDup_app. split; [done |].
  split; [| apply NoDup_singleton].
  intros k Hk Hk'. apply list_elem_of_singleton in Hk'. by subst k.
Qed.

Lemma results_store path cs : ∀ L w,
  Forall (λ r, r = Ok tt) (results cs (store path L w)).
Proof.
  induction cs as [|c cs IH]; intros L w; [constructor |].
  cbn [results]. rewrite exec_ledger. constructor; [| apply IH].
  by rewrite exec_store.
Qed.

(** On a ledger whose edges have distinct natural keys, every call of any
    run returns normally, none raises, and the run leaves a ledger whose
    edges have distinct natural keys. *)
Theorem run_keeps_keys_unique path L w cs :
  unique_keys L →
  ∃ L' w', run cs (store path L w) = store path L' w'
    ∧ unique_keys L'
    ∧ Forall (λ r, r = Ok tt) (results cs (store path L w)).
Proof.
  intros HL. destruct (run_store path cs L w) as [w' Hrun].
  exists (foldl ledger_after L cs), w'. split; [exact Hrun |].
  split; [| apply results_store].
  clear Hrun. revert L HL. induction cs as [|c cs IH]; intros L HL; [done |].
  cbn [foldl]. apply IH. by apply ledger_after_unique_keys.
Qed.

Lemma run_keeps_keys_unique_witness :
  ∃ L' w',
    run [AddTrust "t0" SaveOk (-111) 100 "Owner1" 200 "Member1";
         AddTrust "t1" SaveOk (-111) 100 "Owner1" 200 "Member1";
         AddTrust "t2" SaveOk (-222) 100 "Owner1" 200 "Member1"]
      (store "/tmp/test_trust_get.json" (mkLedger ∅ []) no_files)
    = store "/tmp/test_trust_get.json" L' w'
    ∧ unique_keys L'
    ∧ Forall (λ r, r = Ok tt)
        (results [AddTrust "t0" SaveOk (-111) 100 "Owner1" 200 "Member1";
                  AddTrust "t1" SaveOk (-111) 100 "Owner1" 200 "Member1";
                  AddTrust "t2" SaveOk (-222) 100 "Owner1" 200 "Member1"]
           (store "/tmp/test_trust_get.json" (mkLedger ∅ []) no_files)).
Proof.
  apply (run_keeps_keys_unique "/tmp/test_trust_get.json" (mkLedger ∅ []) no_files).
  apply NoDup_nil_2.
Defined.

Lemma ledger_after_grows L c :
  trusts L `prefix_of` trusts (ledger_after L c)
  ∧ dom (groups L) ⊆ dom (groups (ledger_after L c)).
Proof.
  destruct c as [now io g n o on | now io g a an b bn]; cbn [ledger_after].
  - split; [done |]. cbn [with_group groups]. rewrite dom_insert_L. set_solver.
  - destruct (decide ((g, a, b) ∈ key <$> trusts L)); [done |].
    split; [by apply prefix_app_r | done].
Qed.

(** Nothing is ever removed or reordered: after any run of calls the old
    trusts sequence is a prefix of the new one, and every group key that
    was there is still there. *)
Theorem run_only_appends path L w cs :
  ∃ L' w', run cs (store path L w) = store path L' w'
    ∧ trusts L `prefix_of` trusts L'
    ∧ dom (groups L) ⊆ dom (groups L').
Proof.
  destruct (run_store path cs L w) as [w' Hrun].
  exists (foldl ledger_after L cs), w'. split; [exact Hrun |].
  clear Hrun. revert L. induction cs as [|c cs IH]; intros L; [done |].
  cbn [foldl]. destruct (ledger_after_grows L c) as [HT HG].
  destruct (IH (ledger_after L c)) as [HT' HG'].
  split; [by etrans | by etrans].
Qed.

Lemma world_after_writes path L c w :
  (writes (world_after path L c w)
   = writes w + registrations [c]
     + (length (trusts (ledger_after L c)) - length (trusts L)))%nat.
Proof.
  destruct c as [now io g n o on | now io g a an b bn];
    cbn [world_after ledger_after registrations List.filter length].
  - cbn [with_group trusts]. destruct io; cbn [after_save writes]; lia.
  - destruct (decide ((g, a, b) ∈ key <$> trusts L)); [lia |].
    cbn [with_trust trusts]. rewrite length_app. cbn [length].
    destruct io; cbn [after_save writes]; lia.
Qed.

(** The file is opened for writing once for every [add_group] and once
    for every edge that [add_trust] appends, and never for a duplicate:
    over a run the count of writes grows by the number of registrations
    plus the number of new edges. *)
Theorem run_counts_writes path L w cs :
  ∃ L' w', run cs (store path L w) = store path L' w'
    ∧ (writes w' = writes w + registrations cs
                   + (length (trusts L') - length (trusts L)))%nat.
Proof.
  revert L w. induction cs as [|c cs IH]; intros L w.
  - exists L, w. split; [done |]. cbn. lia.
  - cbn [run foldl]. rewrite exec_ledger.
    destruct (IH (ledger_after L c) (world_after path L c w)) as (L' & w' & Hrun & Hw).
    exists L', w'. split; [exact Hrun |]. rewrite Hw, world_after_writes.
    destruct (run_store path cs (ledger_after L c) (world_after path L c w)) as [w2 Hrun2].
    assert (L' = foldl ledger_after (ledger_after L c) cs) as HL'.
    { unfold run in Hrun, Hrun2. rewrite Hrun in Hrun2.
      by apply store_inj in Hrun2 as (_ & ? & _). }
    assert (length (trusts (ledger_after L c)) ≤ length (trusts L'))%nat as H1.
    { rewrite HL'. clear. generalize (ledger_after L c) as L0.
      induction cs as [|c' cs IH]; intros L0; [done |]. cbn [foldl].
      etrans; [| apply IH]. apply prefix_length, ledger_after_grows. }
    assert (length (trusts L) ≤ length (trusts (ledger_after L c)))%nat as H2
      by apply prefix_length, ledger_after_grows.
    assert (registrations (c :: cs) = registrations [c] + registrations cs)%nat as ->.
    { unfold registrations. cbn [List.filter]. destruct c; cbn [length]; lia. }
    lia.
Qed.

(** ** Saves that fail *)



(** When the dump fails after the file was truncated, [add_group] and
    [add_trust] still return normally, and whatever was saved before is
    gone: a store opened afterwards starts from the empty ledger. *)
Theorem failed_dump_loses_the_file path L w c partial :
  call_io c = DumpFails partial →
  exec (store path L w) c ≠ store path L w →
  ∃ w',
    perform c (store path L w) = (Ok tt, store path (ledger_after L c) w')
    ∧ fs w' !! path = Some (Corrupt partial)
    ∧ __init__ path w' = (Ok (mkStorage path empty_ledger), w').
Proof.
  intros Hio Hch. rewrite exec_ledger in Hch. rewrite exec_store.
  exists (world_after path L c w). split; [done |].
  assert (fs (world_after path L c w) !! path = Some (Corrupt partial)) as Hfs.
  { destruct c as [now io g n o on | now io g a an b bn];
      cbn [call_io] in Hio; subst io; cbn [world_after ledger_after] in Hch |- *.
    - apply lookup_insert_eq.
    - destruct (decide ((g, a, b) ∈ key <$> trusts L)); [done |].
      apply lookup_insert_eq. }
  split; [exact Hfs | by apply (__init___corrupt _ _ partial)].
Qed.

Lemma failed_dump_loses_the_file_witness :
  let L := mkLedger {[ "-123456" := mkGroup "Test Group" 111111 "Owner" "t0" ]} [] in
  let w := mkWorld {[ "/tmp/test_trust_persist.json" := Json (ledger_data L) ]} 1 in
  let c := AddTrust "t1" (DumpFails "{") (-123456) 111111 "Owner" 222222 "Member" in
  ∃ w',
    perform c (store "/tmp/test_trust_persist.json" L w)
    = (Ok tt, store "/tmp/test_trust_persist.json" (ledger_after L c) w')
    ∧ fs w' !! "/tmp/test_trust_persist.json" = Some (Corrupt "{")
    ∧ __init__ "/tmp/test_trust_persist.json" w'
      = (Ok (mkStorage "/tmp/test_trust_persist.json" empty_ledger), w').
Proof.
  cbn zeta.
  apply (failed_dump_loses_the_file "/tmp/test_trust_persist.json"
           (mkLedger {[ "-123456" := mkGroup "Test Group" 111111 "Owner" "t0" ]} [])
           (mkWorld {[ "/tmp/test_trust_persist.json" :=
                         Json (ledger_data
                                 (mkLedger {[ "-123456" :=
                                    mkGroup "Test Group" 111111 "Owner" "t0" ]} [])) ]} 1)
           (AddTrust "t1" (DumpFails "{") (-123456) 111111 "Owner" 222222 "Member")
           "{").
  - reflexivity.
  - intros H. apply (f_equal (λ σ, writes (env σ))) in H. vm_compute in H.
    discriminate H.
Defined.

(** A save that succeeds writes the whole of [self.data]: whatever
    [self.data] and the file held before, and however earlier saves went,
    after a call that changed the state a store opened at the same path
    holds what the first one holds. *)
Theorem successful_save_resyncs σ c :
  call_io c = SaveOk →
  exec σ c ≠ σ →
  __init__ (data_file (self σ)) (env (exec σ c))
  = (Ok (self (exec σ c)), env (exec σ c)).
Proof.
  intros Hio Hch. destruct (exec_cases σ c) as [H | [d' H]]; [done |].
  rewrite H, Hio. cbn [self env]. apply __init___after_save_ok.
Qed.

Lemma successful_save_resyncs_witness :
  let σ := mkState (mkStorage "/tmp/test_trust_persist.json"
                      (ledger_data (mkLedger ∅ [mkTrust 1 2 "a" 3 "b" "t0"])))
             (mkWorld {[ "/tmp/test_trust_persist.json" := Corrupt "{" ]} 1) in
  let c := AddGroup "t1" SaveOk (-123456) "Test Group" 111111 "Owner" in
  __init__ "/tmp/test_trust_persist.json" (env (exec σ c))
  = (Ok (self (exec σ c)), env (exec σ c)).
Proof.
  cbn zeta.
  apply (successful_save_resyncs
           (mkState (mkStorage "/tmp/test_trust_persist.json"
                       (ledger_data (mkLedger ∅ [mkTrust 1 2 "a" 3 "b" "t0"])))
              (mkWorld {[ "/tmp/test_trust_persist.json" := Corrupt "{" ]} 1))
           (AddGroup "t1" SaveOk (-123456) "Test Group" 111111 "Owner")).
  - reflexivity.
  - intros H. apply (f_equal (λ σ, writes (env σ))) in H. vm_compute in H.
    discriminate H.
Defined.

(** ** Queries after an insertion, and on any list of records *)

(** After [add_trust] has appended an edge, [get_group_trusts] returns for
    the edge's group what it returned before followed by the new record,
    and for every other group exactly what it returned before;
    [get_user_trusts] likewise for the truster and for every other user. *)
Theorem queries_after_add_trust path L w now io g a an b bn :
  (g, a, b) ∉ key <$> trusts L →
  let t := mkTrust g a an b bn now in
  ∃ w',
    add_trust now io g a an b bn (store path L w) = (Ok tt, store path (with_trust L t) w')
    ∧ (∀ g', (get_group_trusts g' (store path (with_trust L t) w')).1
             = Ok (trust_record <$>
                     filter (λ e, group_id e = g') (trusts L)
                     ++ (if decide (g = g') then [t] else [])))
    ∧ (∀ u, (get_user_trusts u (store path (with_trust L t) w')).1
            = Ok (trust_record <$>
                    filter (λ e, truster_id e = u) (trusts L)
                    ++ (if decide (a = u) then [t] else []))).
Proof.
  intros Hin t. eexists. split; [by apply add_trust_store_new |].
  split.
  - intros g'. rewrite get_group_trusts_store. cbn [fst with_trust trusts].
    rewrite filter_app, filter_cons, filter_nil. cbn [group_id]. reflexivity.
  - intros u. rewrite get_user_trusts_store. cbn [fst with_trust trusts].
    rewrite filter_app, filter_cons, filter_nil. cbn [truster_id]. reflexivity.
Qed.

Lemma queries_after_add_trust_witness :
  let L := mkLedger ∅ [mkTrust (-111) 100 "Owner1" 200 "Member1" "t0"] in
  let t := mkTrust (-222) 300 "Owner2" 400 "Member3" "t1" in
  ∃ w',
    add_trust "t1" SaveOk (-222) 300 "Owner2" 400 "Member3"
      (store "/tmp/test_trust_get.json" L no_files)
    = (Ok tt, store "/tmp/test_trust_get.json" (with_trust L t) w')
    ∧ (∀ g', (get_group_trusts g' (store "/tmp/test_trust_get.json" (with_trust L t) w')).1
             = Ok (trust_record <$>
                     filter (λ e, group_id e = g') (trusts L)
                     ++ (if decide (-222 = g') then [t] else [])))
    ∧ (∀ u, (get_user_trusts u (store "/tmp/test_trust_get.json" (with_trust L t) w')).1
            = Ok (trust_record <$>
                    filter (λ e, truster_id e = u) (trusts L)
                    ++ (if decide (300 = u) then [t] else []))).
Proof.
  cbn zeta.
  apply (queries_after_add_trust "/tmp/test_trust_get.json"
           (mkLedger ∅ [mkTrust (-111) 100 "Owner1" 200 "Member1" "t0"])
           no_files "t1" SaveOk (-222) 300 "Owner2" 400 "Member3").
  vm_compute. intros H. inversion H as [| ? ? ? H']; inversion H'.
Defined.

Lemma select_ok key n items :
  Forall (λ t, is_ok (getitem t key) = true) items →
  select key n items
  = Ok (List.filter (λ t, match getitem t key with
                          | Ok x => eq_int x n
                          | Raise _ => false
                          end) items).
Proof.
  induction 1 as [|t items Ht _ IH]; [done |].
  cbn [select List.filter]. rewrite IH.
  destruct (getitem t key) as [x|e]; [| discriminate Ht].
  by destruct (eq_int x n).
Qed.

Lemma select_raises key n items :
  ¬ Forall (λ t, is_ok (getitem t key) = true) items →
  ∃ e, select key n items = Raise e.
Proof.
  induction items as [|t items IH]; intros Hnot; [destruct Hnot; constructor |].
  cbn [select]. destruct (getitem t key) as [x|e] eqn:Hx; [| by eexists].
  destruct IH as [e ->]; [| by eexists].
  intros Hall. apply Hnot. constructor; [by rewrite Hx | done].
Qed.

(** On any store whose ["trusts"] is a list, [get_group_trusts] needs
    every item of the list to have a ["group_id"], and nothing else: if all
    have one it returns, in order, the items whose [group_id] equals the
    argument, whatever else they hold; if one item lacks it the query
    raises, for every group.  The store is unchanged in both cases. *)
Theorem get_group_trusts_needs_group_id σ m T g :
  data (self σ) = PDict m →
  m !! "trusts" = Some (PList T) →
  (Forall (λ t, is_ok (getitem t "group_id") = true) T →
     get_group_trusts g σ
     = (Ok (List.filter (λ t, match getitem t "group_id" with
                              | Ok x => eq_int x g
                              | Raise _ => false
                              end) T), σ))
  ∧ (¬ Forall (λ t, is_ok (getitem t "group_id") = true) T →
     ∃ e, get_group_trusts g σ = (Raise e, σ)).
Proof.
  intros Hd Hm. destruct σ as [[p d] w]. cbn [self data] in Hd. subst d.
  unfold get_group_trusts. monad. cbn [getitem]. rewrite Hm. cbn [iter].
  split.
  - intros Hall. by rewrite select_ok.
  - intros Hnot. destruct (select_raises "group_id" g T Hnot) as [e ->]. by eexists.
Qed.

Lemma get_group_trusts_needs_group_id_witness :
  let T := [PDict {[ "group_id" := PInt 5; "note" := PStr "kept" ]};
            PDict {[ "group_id" := PInt 6 ]}] in
  let σ := mkState (mkStorage "trust_data.json" (ledger_dict ∅ T)) no_files in
  get_group_trusts 5 σ
  = (Ok [PDict {[ "group_id" := PInt 5; "note" := PStr "kept" ]}], σ).
Proof.
  cbn zeta.
  refine (proj1 (get_group_trusts_needs_group_id
                   (mkState (mkStorage "trust_data.json"
                       (ledger_dict ∅
                          [PDict {[ "group_id" := PInt 5; "note" := PStr "kept" ]};
                           PDict {[ "group_id" := PInt 6 ]}])) no_files)
                   _ _ 5 eq_refl eq_refl) _).
  repeat constructor.
Defined.

(** ** The handlers on a ledger *)

Lemma lookup_owner_store path L w g :
  lookup_owner g (store path L w)
  = (Ok ((λ gr, (PInt (owner_id gr), PStr (owner_name gr))) <$> groups L !! str g),
     store path L w).
Proof.
  destruct L as [G T]. unfold lookup_owner. monad.
  rewrite getitem_groups. cbn [contains getitem]. rewrite lookup_fmap.
  destruct (G !! str g) as [gr|] eqn:HG; cbn [fmap option_fmap option_map].
  - rewrite bool_decide_eq_true_2 by eauto.
    by destruct (group_record_fields gr) as (_ & -> & -> & _).
  - rewrite bool_decide_eq_false_2; [done | by intros [? ?]].
Qed.

(** The ledger-level reading of the two handlers that record a trust:
    [member] is the user they look at, [wanted] the rest of their
    condition. *)
Lemma record_store now io path L w g (member : User) (wanted : bool) :
  match lookup_owner g (store path L w) with
  | (Raise e, σ') => Some (Raise e, σ')
  | (Ok None, σ') => Some (Ok tt, σ')
  | (Ok (Some (owner_id, owner_name)), σ') =>
      if negb (eq_int owner_id (user_id member)) && wanted
      then record_owner_trust now io g owner_id owner_name member σ'
      else Some (Ok tt, σ')
  end
  = Some (match groups L !! str g with
          | Some gr =>
              if bool_decide (owner_id gr ≠ user_id member) && wanted
              then add_trust now io g (owner_id gr) (owner_name gr)
                     (user_id member) (full_name member) (store path L w)
              else (Ok tt, store path L w)
          | None => (Ok tt, store path L w)
          end).
Proof.
  rewrite lookup_owner_store.
  destruct (groups L !! str g) as [gr|]; cbn [fmap option_fmap option_map]; [| done].
  cbn [eq_int record_owner_trust].
  destruct (decide (owner_id gr = user_id member)) as [Heq|Hne].
  - rewrite bool_decide_eq_true_2, bool_decide_eq_false_2 by auto. done.
  - rewrite bool_decide_eq_false_2, bool_decide_eq_true_2 by auto.
    cbn [negb andb]. by destruct wanted.
Qed.

Lemma track_message_store now io u path L w :
  track_message now io u (store path L w)
  = Some (if bool_decide (chat_type (effective_chat u) ∈ ["group"; "supergroup"]) then
            match groups L !! str (chat_id (effective_chat u)) with
            | Some gr =>
                if bool_decide (owner_id gr ≠ user_id (effective_user u))
                then add_trust now io (chat_id (effective_chat u))
                       (owner_id gr) (owner_name gr)
                       (user_id (effective_user u)) (full_name (effective_user u))
                       (store path L w)
                else (Ok tt, store path L w)
            | None => (Ok tt, store path L w)
            end
          else (Ok tt, store path L w)).
Proof.
  unfold track_message. cbn zeta.
  destruct (bool_decide (chat_type (effective_chat u) ∈ ["group"; "supergroup"]));
    cbn [negb]; [| done].
  rewrite lookup_owner_store.
  destruct (groups L !! str (chat_id (effective_chat u))) as [gr|];
    cbn [fmap option_fmap option_map]; [| done].
  cbn [eq_int record_owner_trust].
  destruct (decide (owner_id gr = user_id (effective_user u))) as [Heq|Hne].
  - rewrite bool_decide_eq_true_2, bool_decide_eq_false_2 by auto. done.
  - rewrite bool_decide_eq_false_2, bool_decide_eq_true_2 by auto. done.
Qed.

Lemma chat_member_updated_store now io u path L w :
  chat_member_updated now io u (store path L w)
  = Some (if bool_decide (chat_type (effective_chat u) ∈ ["group"; "supergroup"]) then
            match groups L !! str (chat_id (effective_chat u)) with
            | Some gr =>
                if bool_decide (owner_id gr ≠ user_id (member_user (new_chat_member u)))
                   && bool_decide (member_status (new_chat_member u)
                                   ∈ ["member"; "administrator"])
                then add_trust now io (chat_id (effective_chat u))
                       (owner_id gr) (owner_name gr)
                       (user_id (member_user (new_chat_member u)))
                       (full_name (member_user (new_chat_member u)))
                       (store path L w)
                else (Ok tt, store path L w)
            | None => (Ok tt, store path L w)
            end
          else (Ok tt, store path L w)).
Proof.
  unfold chat_member_updated. cbn zeta.
  destruct (bool_decide (chat_type (effective_chat u) ∈ ["group"; "supergroup"]));
    cbn [negb]; [| done].
  apply (record_store now io path L w (chat_id (effective_chat u))
           (member_user (new_chat_member u))).
Qed.

(** [get_group_trusts] leaves any state as it is, also when it raises. *)
Lemma get_group_trusts_state g σ : (get_group_trusts g σ).2 = σ.
Proof.
  destruct σ as [[p d] w]. unfold get_group_trusts. monad.
  destruct (getitem d "trusts") as [ts|]; [| done].
  destruct (iter ts) as [items|]; [| done]. done.
Qed.

Lemma status_lines_records T :
  status_lines (trust_record <$> T)
  = Ok ((λ t, (PStr (truster_name t), PStr (trustee_name t))) <$> T).
Proof.
  induction T as [|t T IH]; [done |].
  rewrite !fmap_cons. cbn [status_lines].
  destruct (trust_record_fields t) as (_ & _ & -> & _ & -> & _). by rewrite IH.
Qed.

(** ** /status *)

Lemma status_command_state u σ : (status_command u σ).2 = σ.
Proof.
  unfold status_command. cbn zeta.
  destruct (bool_decide (chat_type (effective_chat u) = "private")); [done |].
  pose proof (get_group_trusts_state (chat_id (effective_chat u)) σ) as Hq.
  destruct σ as [[p d] w]. monad.
  destruct (getitem d "groups") as [gs|]; [| done].
  destruct (contains gs _) as [[|]|]; [| done | done].
  destruct (getitem gs _) as [info|]; [| done].
  destruct (get_group_trusts _ _) as [[r|] σ'] eqn:Hg; cbn [snd] in Hq; subst σ';
    [| done].
  destruct (getitem info "owner_name"); [| done].
  destruct (status_lines r); done.
Qed.

(** [status_command] only reads: whatever [self.data] holds and whether it
    replies or raises, the store and the world are as before. *)
Theorem status_command_reads_only u σ :
  (status_command u σ).2 = σ
  ∧ (get_group_trusts (chat_id (effective_chat u)) σ).2 = σ.
Proof. split; [apply status_command_state | apply get_group_trusts_state]. Qed.

(** On a ledger, [/status] outside a private chat answers "not
    registered" exactly when the groups mapping has no record under the
    chat's key, even if edges of that group exist; otherwise it reports
    the recorded owner name, the number of the group's edges and, in the
    order of the sequence, the truster and trustee names of exactly those
    edges. *)
Theorem status_command_reports path L w u :
  chat_type (effective_chat u) ≠ "private" →
  let g := chat_id (effective_chat u) in
  let r := filter (λ t, group_id t = g) (trusts L) in
  status_command u (store path L w)
  = (Ok match groups L !! str g with
        | None => StatusNotRegistered
        | Some gr =>
            StatusReport (chat_title (effective_chat u)) (PStr (owner_name gr))
              (length r)
              ((λ t, (PStr (truster_name t), PStr (trustee_name t))) <$> r)
        end,
     store path L w).
Proof.
  intros Hpriv g r. unfold status_command. cbn zeta.
  rewrite bool_decide_eq_false_2 by done.
  pose proof (get_group_trusts_store path L w g) as Hq.
  destruct L as [G T]. monad. rewrite getitem_groups.
  cbn [contains getitem]. rewrite lookup_fmap.
  destruct (G !! str (chat_id (effective_chat u))) as [gr|] eqn:HG;
    cbn [fmap option_fmap option_map].
  - rewrite bool_decide_eq_true_2 by eauto.
    unfold store, ledger_data in Hq. cbn [groups trusts] in Hq.
    fold g. rewrite Hq.
    destruct (group_record_fields gr) as (_ & _ & -> & _).
    rewrite status_lines_records, length_fmap. subst r g. by rewrite HG.
  - rewrite bool_decide_eq_false_2 by (by intros [? ?]).
    subst r g. by rewrite HG.
Qed.

Lemma status_command_reports_witness :
  let L := mkLedger ∅ [mkTrust (-111) 100 "Owner1" 200 "Member1" "t0"] in
  let u := mkUpdate (mkChat (-111) "supergroup" "Friends") (mkUser 200 "Member1")
             (mkChatMember (mkUser 200 "Member1") "member") in
  status_command u (store "trust_data.json" L no_files)
  = (Ok StatusNotRegistered, store "trust_data.json" L no_files).
Proof.
  cbn zeta.
  refine (status_command_reports "trust_data.json"
            (mkLedger ∅ [mkTrust (-111) 100 "Owner1" 200 "Member1" "t0"]) no_files
            (mkUpdate (mkChat (-111) "supergroup" "Friends") (mkUser 200 "Member1")
               (mkChatMember (mkUser 200 "Member1") "member")) _).
  discriminate.
Defined.

(** ** /scan *)

Lemma reply_text_run delivered r σ :
  reply_text delivered r σ
  = (if delivered r then Ok r else Raise TelegramError, σ).
Proof. unfold reply_text. by destruct (delivered r). Qed.

(** The state [/scan] leaves on a ledger, whatever becomes of its
    replies. *)
Lemma scan_command_store now io u admins n delivered path L w :
  (scan_command now io u admins n delivered (store path L w)).2
  = if bool_decide (chat_type (effective_chat u) = "private")
    then store path L w
    else
      match admins with
      | None => store path L w
      | Some l =>
          match List.find (λ admin, bool_decide (member_status admin = "creator")) l with
          | None => store path L w
          | Some creator =>
              match n with
              | None => store path L w
              | Some k =>
                  let L' := with_group L now (chat_id (effective_chat u))
                              (chat_title (effective_chat u))
                              (user_id (member_user creator))
                              (full_name (member_user creator)) in
                  store path L' (after_save path (ledger_data L') io w)
              end
          end
      end.
Proof.
  unfold scan_command. cbn zeta.
  destruct (bool_decide (chat_type (effective_chat u) = "private"));
    [by rewrite reply_text_run |].
  unfold try_except.
  destruct admins as [l|];
    [| unfold raise; rewrite reply_text_run; done].
  destruct (List.find _ l) as [creator|];
    [| rewrite reply_text_run; destruct (delivered ScanNoOwner);
       [done | by rewrite reply_text_run]].
  destruct n as [k|];
    [| unfold raise; rewrite reply_text_run; done].
  unfold bind. rewrite add_group_store, reply_text_run. cbn zeta.
  destruct (delivered (ScanRegistered _ _)); [done | by rewrite reply_text_run].
Qed.

(** No exception of the store or of the platform's lookups leaves
    [/scan]: it raises only when a reply cannot be delivered.  When every
    reply is delivered it never raises, whatever [self.data] holds and
    whatever the lookups do, and unless it answers that the group is
    registered it has changed nothing, neither [self.data] nor the file. *)
Theorem scan_command_raises_only_on_reply now io u admins n delivered σ :
  (∀ e, (scan_command now io u admins n delivered σ).1 = Raise e →
        e = TelegramError ∧ ∃ r, delivered r = false)
  ∧ ((∀ r, delivered r = true) →
     ∃ r, (scan_command now io u admins n delivered σ).1 = Ok r
       ∧ ((∀ owner k, r ≠ ScanRegistered owner k) →
          (scan_command now io u admins n delivered σ).2 = σ)).
Proof.
  assert (∀ r σ' e, (reply_text delivered r σ').1 = Raise e →
                    e = TelegramError ∧ ∃ r, delivered r = false) as Hreply.
  { intros r σ' e. rewrite reply_text_run. cbn [fst].
    destruct (delivered r) eqn:Hr; [done |]. intros [= <-]. eauto. }
  split.
  - intros e. unfold scan_command. cbn zeta.
    destruct (bool_decide (chat_type (effective_chat u) = "private"));
      [apply Hreply |].
    unfold try_except.
    destruct admins as [l|]; [| unfold raise; apply Hreply].
    destruct (List.find _ l) as [creator|].
    + destruct n as [k|]; [| unfold raise; apply Hreply].
      unfold bind.
      destruct (add_group now io _ _ _ _ σ) as [[[]|e0] σ0]; [| apply Hreply].
      rewrite reply_text_run.
      destruct (delivered (ScanRegistered _ _)); [done | apply Hreply].
    + rewrite reply_text_run.
      destruct (delivered ScanNoOwner); [done | apply Hreply].
  - intros Hall. unfold scan_command. cbn zeta.
    destruct (bool_decide (chat_type (effective_chat u) = "private")).
    { rewrite reply_text_run, Hall. by eexists. }
    unfold try_except.
    destruct admins as [l|];
      [| unfold raise; rewrite reply_text_run, Hall; by eexists].
    destruct (List.find _ l) as [creator|];
      [| rewrite reply_text_run, Hall; by eexists].
    destruct n as [k|];
      [| unfold raise; rewrite reply_text_run, Hall; by eexists].
    unfold bind.
    destruct (add_group_cases now io (chat_id (effective_chat u))
                (chat_title (effective_chat u)) (user_id (member_user creator))
                (full_name (member_user creator)) σ)
      as [[e He] | (m & G & _ & _ & He)]; rewrite He.
    + rewrite reply_text_run, Hall. by eexists.
    + rewrite reply_text_run, Hall. eexists. split; [reflexivity |].
      intros Hr. by edestruct Hr.
Qed.


(** ** Messages and membership updates *)

(** On a ledger, [track_message] returns normally and records at most one
    edge: in a group or supergroup chat whose group has a record, for a
    sender who is not the recorded owner, it does what [add_trust] does
    for the edge from the recorded owner to the sender, so nothing for a
    sender already trusted; in every other case it changes nothing. *)
Theorem track_message_records_sender now io u path L w :
  let g := chat_id (effective_chat u) in
  let sender := effective_user u in
  (∀ gr,
     chat_type (effective_chat u) ∈ ["group"; "supergroup"] →
     groups L !! str g = Some gr →
     owner_id gr ≠ user_id sender →
     let c := AddTrust now io g (owner_id gr) (owner_name gr)
                (user_id sender) (full_name sender) in
     track_message now io u (store path L w)
     = Some (Ok tt, store path (ledger_after L c) (world_after path L c w)))
  ∧ (chat_type (effective_chat u) ∉ ["group"; "supergroup"]
     ∨ groups L !! str g = None
     ∨ (∃ gr, groups L !! str g = Some gr ∧ owner_id gr = user_id sender) →
     track_message now io u (store path L w) = Some (Ok tt, store path L w)).
Proof.
  intros g sender. subst g sender. rewrite track_message_store. split.
  - intros gr Hty HG Hne c. subst c.
    rewrite bool_decide_eq_true_2, HG, bool_decide_eq_true_2 by done.
    by rewrite <- exec_store.
  - intros [Hty | [HG | (gr & HG & Heq)]].
    + by rewrite bool_decide_eq_false_2.
    + rewrite HG. by case_bool_decide.
    + rewrite HG. case_bool_decide; [| done].
      rewrite bool_decide_eq_false_2; [done | auto].
Qed.

(** On a ledger, [chat_member_updated] records the edge from the recorded
    owner to the new member, as [add_trust] does, when the chat is a group
    or supergroup with a record, the member is not the recorded owner and
    the new status is "member" or "administrator"; for any other status,
    such as "left" or "kicked", and in every other case it changes
    nothing. *)
Theorem chat_member_updated_records_member now io u path L w :
  let g := chat_id (effective_chat u) in
  let member := member_user (new_chat_member u) in
  (∀ gr,
     chat_type (effective_chat u) ∈ ["group"; "supergroup"] →
     groups L !! str g = Some gr →
     owner_id gr ≠ user_id member →
     member_status (new_chat_member u) ∈ ["member"; "administrator"] →
     let c := AddTrust now io g (owner_id gr) (owner_name gr)
                (user_id member) (full_name member) in
     chat_member_updated now io u (store path L w)
     = Some (Ok tt, store path (ledger_after L c) (world_after path L c w)))
  ∧ (chat_type (effective_chat u) ∉ ["group"; "supergroup"]
     ∨ groups L !! str g = None
     ∨ (∃ gr, groups L !! str g = Some gr ∧ owner_id gr = user_id member)
     ∨ member_status (new_chat_member u) ∉ ["member"; "administrator"] →
     chat_member_updated now io u (store path L w) = Some (Ok tt, store path L w)).
Proof.
  intros g member. subst g member. rewrite chat_member_updated_store. split.
  - intros gr Hty HG Hne Hst c. subst c.
    rewrite bool_decide_eq_true_2, HG by done.
    rewrite !bool_decide_eq_true_2 by done. cbn [andb].
    by rewrite <- exec_store.
  - intros [Hty | [HG | [(gr & HG & Heq) | Hst]]].
    + by rewrite bool_decide_eq_false_2.
    + rewrite HG. by case_bool_decide.
    + rewrite HG. case_bool_decide; [| done].
      rewrite (bool_decide_eq_false_2 (owner_id gr ≠ _)); [done | auto].
    + case_bool_decide; [| done].
      destruct (groups L !! str _) as [gr|]; [| done].
      rewrite (bool_decide_eq_false_2 (member_status _ ∈ _)) by done.
      by rewrite andb_false_r.
Qed.

(** ** What the handlers keep *)

(** One update, on a ledger: the handlers give an answer, and the ledger
    is as before, or has one group record replaced, or has one new edge
    from the recorded owner of a registered group to somebody else. *)
Lemma handle_store ev path L w :
  ∃ L' w',
    handle ev (store path L w) = Some (store path L' w')
    ∧ (L' = L
       ∨ (∃ now g n o on, L' = with_group L now g n o on)
       ∨ (∃ gr t,
            groups L !! str (group_id t) = Some gr
            ∧ truster_id t = owner_id gr
            ∧ truster_id t ≠ trustee_id t
            ∧ (key t ∉ key <$> trusts L)
            ∧ L' = with_trust L t)).
Proof.
  assert (∀ now io g gr (member : User),
            groups L !! str g = Some gr → owner_id gr ≠ user_id member →
            ∃ L' w',
              Some (add_trust now io g (owner_id gr) (owner_name gr)
                      (user_id member) (full_name member) (store path L w)).2
              = Some (store path L' w')
              ∧ (L' = L
                 ∨ (∃ now g n o on, L' = with_group L now g n o on)
                 ∨ (∃ gr t,
                      groups L !! str (group_id t) = Some gr
                      ∧ truster_id t = owner_id gr
                      ∧ truster_id t ≠ trustee_id t
                      ∧ (key t ∉ key <$> trusts L)
                      ∧ L' = with_trust L t))) as Hadd.
  { intros now io g gr member HG Hne.
    destruct (decide ((g, owner_id gr, user_id member) ∈ key <$> trusts L)) as [Hin|Hin].
    - exists L, w. rewrite add_trust_store_dup by done. split; [done | by left].
    - eexists _, _. rewrite add_trust_store_new by done. split; [done |].
      right; right. exists gr. eexists. repeat split; try done. }
  destruct ev as [now io u | now io u | now io u admins n delivered | u]; cbn [handle].
  - rewrite track_message_store. cbn [fmap option_fmap option_map].
    case_bool_decide; [| exists L, w; split; [done | by left]].
    destruct (groups L !! str _) as [gr|] eqn:HG;
      [| exists L, w; split; [done | by left]].
    case_bool_decide; [| exists L, w; split; [done | by left]].
    by apply Hadd.
  - rewrite chat_member_updated_store. cbn [fmap option_fmap option_map].
    case_bool_decide; [| exists L, w; split; [done | by left]].
    destruct (groups L !! str _) as [gr|] eqn:HG;
      [| exists L, w; split; [done | by left]].
    case_bool_decide; cbn [andb]; [| exists L, w; split; [done | by left]].
    case_bool_decide; [| exists L, w; split; [done | by left]].
    by apply Hadd.
  - rewrite scan_command_store.
    case_bool_decide; [exists L, w; split; [done | by left] |].
    destruct admins as [l|]; [| exists L, w; split; [done | by left]].
    destruct (List.find _ l) as [creator|]; [| exists L, w; split; [done | by left]].
    destruct n as [k|]; [| exists L, w; split; [done | by left]].
    eexists _, _. split; [reflexivity |]. right; left. by eexists _, _, _, _, _.
  - rewrite status_command_state. exists L, w. split; [done | by left].
Qed.

Lemma handle_all_store evs path : ∀ L w (P : Ledger → Prop),
  (∀ L now g n o on, P L → P (with_group L now g n o on)) →
  (∀ L gr t,
     groups L !! str (group_id t) = Some gr → truster_id t = owner_id gr →
     truster_id t ≠ trustee_id t → key t ∉ key <$> trusts L →
     P L → P (with_trust L t)) →
  P L →
  ∃ L' w', handle_all evs (store path L w) = Some (store path L' w') ∧ P L'.
Proof.
  induction evs as [|ev evs IH]; intros L w P Hgroup Htrust HL.
  - by exists L, w.
  - cbn [handle_all].
    destruct (handle_store ev path L w) as (L1 & w1 & -> & Hstep).
    apply IH; [done | done |].
    destruct Hstep as [-> | [(now & g & n & o & on & ->) | (gr & t & ? & ? & ? & ? & ->)]];
      eauto.
Qed.

(** The handlers never record that somebody trusts themselves: on a
    ledger without such an edge, any sequence of messages, membership
    updates, scans and status requests is handled to the end and leaves a
    ledger without such an edge, also when groups change their owner in
    between. *)
Theorem handlers_record_no_self_trust path L w evs :
  no_self_trust L →
  ∃ L' w', handle_all evs (store path L w) = Some (store path L' w')
    ∧ no_self_trust L'.
Proof.
  apply (handle_all_store evs path L w no_self_trust).
  - intros L0 now g n o on H. exact H.
  - intros L0 gr t _ _ Hne _ H. unfold no_self_trust in *. cbn [with_trust trusts].
    apply Forall_app. split; [done |]. by constructor.
Qed.

Lemma handlers_record_no_self_trust_witness :
  ∃ L' w',
    handle_all
      [Scan "t0" SaveOk
         (mkUpdate (mkChat (-111) "supergroup" "Friends") (mkUser 200 "Member1")
            (mkChatMember (mkUser 200 "Member1") "member"))
         (Some [mkChatMember (mkUser 100 "Owner1") "creator"]) (Some 2) (λ _, true);
       Message "t1" SaveOk
         (mkUpdate (mkChat (-111) "supergroup" "Friends") (mkUser 100 "Owner1")
            (mkChatMember (mkUser 100 "Owner1") "creator"));
       Message "t2" SaveOk
         (mkUpdate (mkChat (-111) "supergroup" "Friends") (mkUser 200 "Member1")
            (mkChatMember (mkUser 200 "Member1") "member"))]
      (store "trust_data.json" (mkLedger ∅ []) no_files)
    = Some (store "trust_data.json" L' w')
    ∧ no_self_trust L'.
Proof.
  apply (handlers_record_no_self_trust "trust_data.json" (mkLedger ∅ []) no_files).
  constructor.
Defined.

(** The handlers record trusts only for registered groups: on a ledger
    where every edge belongs to a group with a record, any sequence of
    updates leaves a ledger where every edge belongs to a group with a
    record. *)
Theorem handlers_record_registered_groups path L w evs :
  groups_registered L →
  ∃ L' w', handle_all evs (store path L w) = Some (store path L' w')
    ∧ groups_registered L'.
Proof.
  apply (handle_all_store evs path L w groups_registered).
  - intros L0 now g n o on H. unfold groups_registered in *.
    cbn [with_group trusts groups]. eapply Forall_impl; [exact H |].
    intros t Ht. cbn beta in Ht |- *. by apply lookup_insert_is_Some'; right.
  - intros L0 gr t HG _ _ _ H. unfold groups_registered in *.
    cbn [with_trust trusts groups]. apply Forall_app. split; [done |].
    constructor; [by eexists | constructor].
Qed.

Lemma handlers_record_registered_groups_witness :
  ∃ L' w',
    handle_all
      [Message "t1" SaveOk
         (mkUpdate (mkChat (-111) "supergroup" "Friends") (mkUser 200 "Member1")
            (mkChatMember (mkUser 200 "Member1") "member"));
       Scan "t2" SaveOk
         (mkUpdate (mkChat (-111) "supergroup" "Friends") (mkUser 200 "Member1")
            (mkChatMember (mkUser 200 "Member1") "member"))
         (Some [mkChatMember (mkUser 100 "Owner1") "creator"]) (Some 2) (λ _, false);
       MemberUpdate "t3" SaveOk
         (mkUpdate (mkChat (-111) "supergroup" "Friends") (mkUser 100 "Owner1")
            (mkChatMember (mkUser 300 "Member2") "member"))]
      (store "trust_data.json" (mkLedger ∅ []) no_files)
    = Some (store "trust_data.json" L' w')
    ∧ groups_registered L'.
Proof.
  apply (handlers_record_registered_groups "trust_data.json" (mkLedger ∅ []) no_files).
  constructor.
Defined.

(** ** One edge for every member who writes *)

Lemma key_of_owner_edges g o (T : list TrustEdge) x :
  Forall (λ t, group_id t = g ∧ truster_id t = o) T →
  (g, o, x) ∈ key <$> T ↔ x ∈ trustee_id <$> T.
Proof.
  intros HT. rewrite !list_elem_of_fmap. split.
  - intros (t & Hk & Ht). exists t. split; [| done]. unfold key in Hk. congruence.
  - intros (t & -> & Ht). exists t. split; [| done].
    rewrite Forall_forall in HT. destruct (HT t Ht) as [<- <-]. done.
Qed.

Lemma messages_from_owner_edges path G chat cm gr
    (msgs : list (string * save_outcome * User)) : ∀ T w,
  chat_type chat ∈ ["group"; "supergroup"] →
  G !! str (chat_id chat) = Some gr →
  Forall (λ t, group_id t = chat_id chat ∧ truster_id t = owner_id gr) T →
  NoDup (trustee_id <$> T) →
  ∃ T' w',
    handle_all ((λ m, Message m.1.1 m.1.2 (mkUpdate chat m.2 cm)) <$> msgs)
      (store path (mkLedger G T) w)
    = Some (store path (mkLedger G T') w')
    ∧ Forall (λ t, group_id t = chat_id chat ∧ truster_id t = owner_id gr) T'
    ∧ NoDup (trustee_id <$> T')
    ∧ (∀ x, x ∈ trustee_id <$> T'
            ↔ x ∈ trustee_id <$> T
              ∨ (x ∈ (λ m, user_id m.2) <$> msgs ∧ x ≠ owner_id gr)).
Proof.
  induction msgs as [|[[now io] user] msgs IH]; intros T w Hty HG HT Hnd.
  - exists T, w. split; [done |]. split; [done |]. split; [done |].
    intros x. rewrite fmap_nil.
    split; [by left | intros [? | [?%elem_of_nil ?]]; done].
  - rewrite !fmap_cons. cbn [handle_all handle fst snd].
    rewrite track_message_store. cbn [effective_chat effective_user groups trusts].
    rewrite bool_decide_eq_true_2, HG by done.
    cbn [fmap option_fmap option_map].
    destruct (decide (owner_id gr = user_id user)) as [Heq|Hne].
    + rewrite bool_decide_eq_false_2 by auto. cbn [snd].
      destruct (IH T w Hty HG HT Hnd) as (T' & w' & Hrun & HT' & Hnd' & Hx).
      exists T', w'. split; [exact Hrun |]. split; [done |]. split; [done |].
      intros x. rewrite Hx, elem_of_cons. split.
      * intros [? | [? ?]]; [by left | right; auto].
      * intros [? | [[-> | ?] ?]]; [by left | done | right; auto].
    + rewrite bool_decide_eq_true_2 by done.
      destruct (decide (user_id user ∈ trustee_id <$> T)) as [Hin|Hin].
      * rewrite add_trust_store_dup
          by (cbn [trusts]; by apply key_of_owner_edges).
        cbn [snd].
        destruct (IH T w Hty HG HT Hnd) as (T' & w' & Hrun & HT' & Hnd' & Hx).
        exists T', w'. split; [exact Hrun |]. split; [done |]. split; [done |].
        intros x. rewrite Hx, elem_of_cons. split.
        -- intros [? | [? ?]]; [by left | right; auto].
        -- intros [? | [[-> | ?] ?]]; [by left | by left | right; auto].
      * rewrite add_trust_store_new
          by (cbn [trusts]; by rewrite key_of_owner_edges).
        cbn zeta. unfold with_trust at 1. cbn [snd groups trusts].
        set (t := mkTrust (chat_id chat) (owner_id gr) (owner_name gr)
                    (user_id user) (full_name user) now).
        destruct (IH (T ++ [t])
                    (after_save path
                       (ledger_data (with_trust (mkLedger G T) t)) io w) Hty HG)
          as (T' & w' & Hrun & HT' & Hnd' & Hx).
        { apply Forall_app. split; [done |]. by constructor. }
        { rewrite fmap_app. apply NoDup_app. split; [done |].
          split; [| apply NoDup_singleton].
          intros x Hx Hx'. apply list_elem_of_singleton in Hx'. by subst x. }
        exists T', w'. split; [exact Hrun |]. split; [done |]. split; [done |].
        intros x. rewrite Hx, fmap_app, elem_of_app, elem_of_cons.
        cbn [fmap list_fmap trustee_id t]. rewrite list_elem_of_singleton.
        split.
        -- intros [[? | ->] | [? ?]]; [by left | right; split; auto | right; auto].
        -- intros [? | [[-> | ?] ?]]; [left; by left | left; by right | right; auto].
Qed.

(** In a registered group chat with no edges yet, after any sequence of
    messages the ledger has exactly one edge for each distinct sender
    other than the recorded owner, however often they wrote, and none for
    the owner; every edge is in the chat's group with the recorded owner
    as truster, and the groups are as they were. *)
Theorem messages_record_each_sender_once path G w chat cm gr
    (msgs : list (string * save_outcome * User)) :
  chat_type chat ∈ ["group"; "supergroup"] →
  G !! str (chat_id chat) = Some gr →
  ∃ T' w',
    handle_all ((λ m, Message m.1.1 m.1.2 (mkUpdate chat m.2 cm)) <$> msgs)
      (store path (mkLedger G []) w)
    = Some (store path (mkLedger G T') w')
    ∧ Forall (λ t, group_id t = chat_id chat ∧ truster_id t = owner_id gr) T'
    ∧ NoDup (trustee_id <$> T')
    ∧ (∀ x, x ∈ trustee_id <$> T'
            ↔ x ∈ (λ m, user_id m.2) <$> msgs ∧ x ≠ owner_id gr).
Proof.
  intros Hty HG.
  destruct (messages_from_owner_edges path G chat cm gr msgs [] w Hty HG)
    as (T' & w' & Hrun & HT' & Hnd' & Hx); [constructor | constructor |].
  exists T', w'. split; [exact Hrun |]. split; [done |]. split; [done |].
  intros x. rewrite Hx. rewrite fmap_nil.
  split; [intros [?%elem_of_nil | ?]; done | by right].
Qed.

Lemma messages_record_each_sender_once_witness :
  let chat := mkChat (-111) "supergroup" "Friends" in
  let cm := mkChatMember (mkUser 100 "Owner1") "creator" in
  let G : gmap string Group := {[ "-111" := mkGroup "Friends" 100 "Owner1" "t0" ]} in
  let msgs := [("t1", SaveOk, mkUser 200 "Member1");
               ("t2", SaveOk, mkUser 100 "Owner1");
               ("t3", SaveOk, mkUser 200 "Member1")] in
  ∃ T' w',
    handle_all ((λ m, Message m.1.1 m.1.2 (mkUpdate chat m.2 cm)) <$> msgs)
      (store "trust_data.json" (mkLedger G []) no_files)
    = Some (store "trust_data.json" (mkLedger G T') w')
    ∧ Forall (λ t, group_id t = -111 ∧ truster_id t = 100) T'
    ∧ NoDup (trustee_id <$> T')
    ∧ (∀ x, x ∈ trustee_id <$> T'
            ↔ x ∈ (λ m, user_id m.2) <$> msgs ∧ x ≠ 100).
Proof.
  cbn zeta.
  apply (messages_record_each_sender_once "trust_data.json"
           {[ "-111" := mkGroup "Friends" 100 "Owner1" "t0" ]} no_files
           (mkChat (-111) "supergroup" "Friends")
           (mkChatMember (mkUser 100 "Owner1") "creator")
           (mkGroup "Friends" 100 "Owner1" "t0")
           [("t1", SaveOk, mkUser 200 "Member1");
            ("t2", SaveOk, mkUser 100 "Owner1");
            ("t3", SaveOk, mkUser 200 "Member1")]).
  - apply list_elem_of_further, list_elem_of_here.
  - reflexivity.
Defined.

(** ** /scan, then a message *)



(** When the reply after the registration cannot be delivered, [/scan]
    answers with the error text instead, and the group stays registered
    and written. *)
Example scan_registers_before_it_replies :
  let u := mkUpdate (mkChat (-111) "supergroup" "Friends") (mkUser 200 "Member1")
             (mkChatMember (mkUser 200 "Member1") "member") in
  let σ := fresh "trust_data.json" in
  let σ' := (scan_command "t1" SaveOk u
               (Some [mkChatMember (mkUser 100 "Owner1") "creator"]) (Some 2)
               (λ r, match r with ScanError _ => true | _ => false end) σ) in
  σ'.1 = Ok (ScanError None)
  ∧ data (self σ'.2)
    = ledger_data (mkLedger {[ "-111" := mkGroup "Friends" 100 "Owner1" "t1" ]} [])
  ∧ fs (env σ'.2) !! "trust_data.json" = Some (Json (data (self σ'.2))).
Proof. vm_compute. repeat split. Qed.
